(** * rl-finance: the recurrent policy network and its policy-gradient step

    A shallow embedding of [model/model.py]: the [Encoder], the [PolicyNet]
    with its stored recurrent state, and [optimize_model].

    Conventions of the embedding.
    - Tensor entries are exact rationals ([Q]); rounding of the machine
      floats is outside the model, and equalities between computed entries
      are stated with [Qeq] ([==]).
    - A tensor of shape (batch, features) is a list of rows; a 1-D tensor is
      a list of entries.
    - A Python exception is a value of [exn]; a call that can raise returns a
      [result].  Attribute assignments on [self] made before an exception is
      raised persist, so [forward] returns the network next to its outcome.
    - What torch draws at random (the category of the one-hot decision, the
      Normal samples) is an explicit argument of [forward]. *)

From Stdlib Require Import QArith Lia Lqa List Bool Arith.
From stdpp Require Import base list.
Import ListNotations.

Local Open Scope nat_scope.

(** ** Exceptions and results *)

Inductive exn : Type :=
  | TypeError        (* an operation applied to None *)
  | IndexError       (* a subscript out of range *)
  | AttributeError   (* an attribute read on None *)
  | RuntimeError.    (* raised by torch: shapes, autograd *)

Inductive result (A : Type) : Type :=
  | Ok (a : A)
  | Raise (e : exn).
Arguments Ok {A} a.
Arguments Raise {A} e.

Definition rbind {A B} (m : result A) (f : A -> result B) : result B :=
  match m with
  | Ok a => f a
  | Raise e => Raise e
  end.

Notation "'do' x <- m ; k" := (rbind m (fun x => k))
  (at level 10, x pattern, m at level 100, k at level 200).

Definition is_ok {A} (r : result A) : bool :=
  match r with Ok _ => true | Raise _ => false end.

(** Python's [l[i]] on a list or along a tensor dimension. *)
Definition subscript {A} (l : list A) (i : nat) : result A :=
  match l !! i with
  | Some x => Ok x
  | None => Raise IndexError
  end.

(** ** Tensors *)

Abbreviation vec := (list Q) (only parsing).
Abbreviation matrix := (list (list Q)) (only parsing).

(** [torch.zeros(n)] and [torch.zeros((r, c))]. *)
Definition zeros1 (n : nat) : vec := repeat 0%Q n.
Definition zeros2 (r c : nat) : matrix := repeat (zeros1 c) r.

(** A tensor of shape (r, c). *)
Definition has_shape (r c : nat) (m : matrix) : Prop :=
  length m = r /\ Forall (fun row => length row = c) m.

(** [torch.sum] of a 1-D tensor. *)
Definition tsum (v : vec) : Q := fold_left Qplus v 0%Q.

(** ** optimize_model: the reward-to-go weights *)

Module RewardToGo.

Local Open Scope Q_scope.

(** One iteration of the loop body
    [rtg[i] = rewards[i] + (GAMMA * rtg[i+1] if i + 1 < n else 0)]. *)
Definition rtg_body (GAMMA : Q) (rewards : vec) (rtg : vec) (i : nat) : vec :=
  let n := length rewards in
  <[ i := nth i rewards 0 + (if (i + 1 <? n)%nat then GAMMA * nth (i + 1) rtg 0 else 0) ]> rtg.

(** The loop [for i in reversed(range(n))] over [rtg = torch.zeros(n)]. *)
Definition reward_to_go (GAMMA : Q) (rewards : vec) : vec :=
  let n := length rewards in
  fold_left (rtg_body GAMMA rewards) (rev (seq 0 n)) (zeros1 n).

(** The same sequence by recursion on the rewards, last reward first. *)
Fixpoint rtg_rec (GAMMA : Q) (rewards : vec) : vec :=
  match rewards with
  | [] => []
  | r :: rs =>
      match rs with
      | [] => [r + 0]
      | _ :: _ => (r + GAMMA * hd 0 (rtg_rec GAMMA rs)) :: rtg_rec GAMMA rs
      end
  end.

End RewardToGo.

Import RewardToGo.

(** ** optimize_model: the loss and the update *)

Module Optimize.

Local Open Scope Q_scope.

(** [a * b] on two 1-D tensors.  torch multiplies entry by entry when the
    lengths agree, stretches a tensor of length 1 over the other one, and
    raises otherwise. *)
Definition tmul (a b : vec) : result vec :=
  if (length a =? length b)%nat then Ok (zip_with Qmult a b)
  else if (length a =? 1)%nat then Ok (map (fun y => hd 0 a * y) b)
  else if (length b =? 1)%nat then Ok (map (fun x => x * hd 0 b) a)
  else Raise RuntimeError.

(** [- torch.sum(batch_log_prob[i] * batch_weight[i])]. *)
Definition episode_term (batch_log_prob batch_weight : list vec) (i : nat)
  : result Q :=
  do lp <- subscript batch_log_prob i;
  do w <- subscript batch_weight i;
  do prod <- tmul lp w;
  Ok (- tsum prod).

(** The loop [for i in range(batch_size)]; [loss] is [None] until the first
    iteration has run. *)
Fixpoint loss_loop (batch_log_prob batch_weight : list vec)
    (indices : list nat) (loss : option Q) : result (option Q) :=
  match indices with
  | [] => Ok loss
  | i :: rest =>
      do term <- episode_term batch_log_prob batch_weight i;
      loss_loop batch_log_prob batch_weight rest
        (Some match loss with
              | None => term
              | Some l => l + term
              end)
  end.

(** The value of [loss] that [optimize_model] backpropagates:
    lines 169-189. [None / tensor] raises a TypeError. *)
Definition optimize_model_loss (GAMMA : Q)
    (batch_log_prob batch_rewards : list vec) : result Q :=
  let batch_size := length batch_log_prob in
  let batch_weight := map (reward_to_go GAMMA) batch_rewards in
  do loss <- loss_loop batch_log_prob batch_weight (seq 0 batch_size) None;
  match loss with
  | None => Raise TypeError
  | Some l => Ok (l / inject_Z (Z.of_nat batch_size))
  end.

(** *** The loss in the words of the specification *)

(** Per-episode contribution: minus the sum over [t] of
    [log_prob[t] * rtg[t]]. *)
Definition episode_objective (GAMMA : Q) (log_prob rewards : vec) : Q :=
  - fold_right Qplus 0 (zip_with Qmult log_prob (reward_to_go GAMMA rewards)).

Definition mean (xs : list Q) : Q :=
  fold_right Qplus 0 xs / inject_Z (Z.of_nat (length xs)).

Definition spec_loss (GAMMA : Q) (batch_log_prob batch_rewards : list vec) : Q :=
  mean (zip_with (episode_objective GAMMA) batch_log_prob batch_rewards).

(** *** Gradients and the optimizer *)

(** A log-probability tensor as the rollout hands it over: its entries and
    whether it is attached to the computation graph. *)
Record tensor : Type := mkTensor {
  data : vec;
  requires_grad : bool
}.

(** A parameter of the policy: its entries and its [.grad]. *)
Record param : Type := mkParam {
  p_data : vec;
  p_grad : option vec
}.

(** The optimizer object: what [zero_grad] leaves in a [.grad] (None, or
    zeros, depending on the torch release) and the parameters [step]
    computes from the parameters and their gradients. *)
Record optimizer : Type := mkOptimizer {
  zero_grad : option vec -> option vec;
  step : list param -> list param
}.

(** [loss.backward()].  torch raises a RuntimeError on a tensor that does
    not require grad; otherwise every parameter the loss depends on
    receives its gradient, added to what [.grad] holds.  [dloss i] is the
    gradient autograd computes for the parameter of index [i] ([None]: the
    loss does not depend on it). *)
Definition accumulate (old d : option vec) : option vec :=
  match d with
  | None => old
  | Some g =>
      match old with
      | None => Some g
      | Some o => Some (zip_with Qplus o g)
      end
  end.

Definition backward (loss_requires_grad : bool) (dloss : nat -> option vec)
    (params : list param) : result (list param) :=
  if loss_requires_grad
  then Ok (imap (fun i p => mkParam (p_data p) (accumulate (p_grad p) (dloss i)))
             params)
  else Raise RuntimeError.

(** [clamp_(-1, 1)] on one entry. *)
Definition clamp1 (x : Q) : Q :=
  if Qlt_le_dec x (-1) then -1 else if Qlt_le_dec 1 x then 1 else x.

(** The loop [for param in policy_net.parameters():
    param.grad.data.clamp_(-1, 1)]; the parameters already visited stay
    clamped when a later one has no gradient. *)
Fixpoint clamp_grads (params : list param) : list param * result unit :=
  match params with
  | [] => ([], Ok tt)
  | p :: rest =>
      match p_grad p with
      | None => (p :: rest, Raise AttributeError)
      | Some g =>
          let (rest', r) := clamp_grads rest in
          (mkParam (p_data p) (Some (map clamp1 g)) :: rest', r)
      end
  end.

(** [optimize_model]: the parameters it leaves behind and how it ends. *)
Definition optimize_model (params : list param) (dloss : nat -> option vec)
    (batch_log_prob : list tensor) (batch_rewards : list vec)
    (opt : optimizer) (GAMMA : Q) : list param * result unit :=
  match optimize_model_loss GAMMA (map data batch_log_prob) batch_rewards with
  | Raise e => (params, Raise e)
  | Ok _ =>
      let loss_requires_grad := existsb requires_grad batch_log_prob in
      let params1 := map (fun p => mkParam (p_data p) (zero_grad opt (p_grad p))) params in
      match backward loss_requires_grad dloss params1 with
      | Raise e => (params1, Raise e)
      | Ok params2 =>
          match clamp_grads params2 with
          | (params3, Raise e) => (params3, Raise e)
          | (params3, Ok _) => (step opt params3, Ok tt)
          end
      end
  end.

End Optimize.

Import Optimize.

(** ** PolicyNet *)

Module Policy.

Local Open Scope Q_scope.

(** *** The layers torch provides *)

(** [torch.nn.Linear]: [y = x W^T + b], one output row per input row. *)
Record Linear : Type := mkLinear {
  in_features : nat;
  out_features : nat;
  weight : matrix;              (* out_features rows of in_features entries *)
  bias : vec                    (* out_features entries *)
}.

(** [Linear(in_f, out_f)]; [W] and [b] stand for the initial entries. *)
Definition Linear_init (in_f out_f : nat) (W : nat -> nat -> Q) (b : nat -> Q)
  : Linear :=
  mkLinear in_f out_f
    (map (fun j => map (W j) (seq 0 in_f)) (seq 0 out_f))
    (map b (seq 0 out_f)).

Definition dot (x w : vec) : Q := tsum (zip_with Qmult x w).

Definition Linear_forward (L : Linear) (x : matrix) : result matrix :=
  if forallb (fun row => (length row =? in_features L)%nat) x
  then Ok (map (fun row => zip_with (fun w b => dot row w + b) (weight L) (bias L)) x)
  else Raise RuntimeError.

(** [torch.nn.LSTMCell] applied to an input and a carry [(h, c)]: the new
    [(h, c)], or the error torch raises on a shape it refuses.  The gates
    are torch's; the network only composes cells. *)
Definition LSTMCell : Type := matrix -> matrix * matrix -> result (matrix * matrix).

(** *** The module *)

Record PolicyNet : Type := mkPolicyNet {
  state_size : nat;
  num_actions : nat;
  act_lim : Q;
  batch_size : nat;
  hidden_size : nat;
  num_layers : nat;
  dropout : Q;
  cell_list : list LSTMCell;
  FC_decision : Linear;
  FC_values_mean : Linear;
  FC_values_logstd : Linear;
  h_list : option (list matrix);
  c_list : option (list matrix)
}.

(** What torch draws when the layers are created. *)
Record init_weights : Type := mkInit {
  init_cell : nat -> LSTMCell;
  init_decision_W : nat -> nat -> Q;  init_decision_b : nat -> Q;
  init_mean_W : nat -> nat -> Q;      init_mean_b : nat -> Q;
  init_logstd_W : nat -> nat -> Q;    init_logstd_b : nat -> Q
}.

(** [PolicyNet.__init__]. *)
Definition PolicyNet_init (state_size num_actions : nat) (act_lim : Q)
    (batch_size hidden_size num_layers : nat) (dropout : Q) (w : init_weights)
  : PolicyNet :=
  {| state_size := state_size;
     num_actions := num_actions;
     act_lim := act_lim;
     batch_size := batch_size;
     hidden_size := hidden_size;
     num_layers := num_layers;
     dropout := dropout;
     cell_list := init_cell w 0%nat :: map (init_cell w) (seq 1 (num_layers - 1));
     FC_decision := Linear_init hidden_size num_actions (init_decision_W w) (init_decision_b w);
     FC_values_mean := Linear_init hidden_size num_actions (init_mean_W w) (init_mean_b w);
     FC_values_logstd := Linear_init hidden_size num_actions (init_logstd_W w) (init_logstd_b w);
     h_list := None;
     c_list := None |}.

(** Assignment of [self.h_list] and [self.c_list]. *)
Definition set_state (net : PolicyNet) (h c : option (list matrix)) : PolicyNet :=
  {| state_size := state_size net;
     num_actions := num_actions net;
     act_lim := act_lim net;
     batch_size := batch_size net;
     hidden_size := hidden_size net;
     num_layers := num_layers net;
     dropout := dropout net;
     cell_list := cell_list net;
     FC_decision := FC_decision net;
     FC_values_mean := FC_values_mean net;
     FC_values_logstd := FC_values_logstd net;
     h_list := h;
     c_list := c |}.

(** *** forward: the recurrent state *)

(** [tensor * k] for a Python number [k]. *)
Definition scale (m : matrix) (k : Q) : matrix := map (map (fun x => x * k)) m.

(** Lines 93-95.  The list display holds one tensor, the zeros multiplied
    by [num_layers]; its slot 0 then receives the encoding. *)
Definition reset (net : PolicyNet) (encoding : matrix) : PolicyNet :=
  let n := inject_Z (Z.of_nat (num_layers net)) in
  let h := [scale (zeros2 (batch_size net) (hidden_size net)) n] in
  let c := [scale (zeros2 (batch_size net) (hidden_size net)) n] in
  set_state net (Some (<[0%nat := encoding]> h)) (Some c).

(** [self.h_list[i]]: subscripting None is a TypeError. *)
Definition stored (l : option (list matrix)) (i : nat) : result matrix :=
  match l with
  | None => Raise TypeError
  | Some l => subscript l i
  end.

(** Lines 101-103. *)
Definition first_layer (net : PolicyNet) (state : matrix)
  : result (matrix * matrix) :=
  do cell <- subscript (cell_list net) 0;
  do h0 <- stored (h_list net) 0;
  do c0 <- stored (c_list net) 0;
  cell state (h0, c0).

(** Lines 105-108, the loop over [range(1, self.num_layers)]: [h_1] is the
    output of the layer below; the carry is read from [self.h_list[0]] and
    [self.c_list[0]], whose assignment comes after the loop. *)
Fixpoint following_layers (net : PolicyNet) (indices : list nat)
    (h_1 : matrix) (h1_list c1_list : list matrix)
  : result (matrix * (list matrix * list matrix)) :=
  match indices with
  | [] => Ok (h_1, (h1_list, c1_list))
  | i :: rest =>
      do cell <- subscript (cell_list net) i;
      do h0 <- stored (h_list net) 0;
      do c0 <- stored (c_list net) 0;
      do hc <- cell h_1 (h0, c0);
      following_layers net rest (fst hc)
        (h1_list ++ [fst hc]) (c1_list ++ [snd hc])
  end.

(** Lines 98-108: the output of the top layer and the two new lists. *)
Definition recurrent (net : PolicyNet) (state : matrix)
  : result (matrix * (list matrix * list matrix)) :=
  do hc <- first_layer net state;
  following_layers net (seq 1 (num_layers net - 1)) (fst hc) [fst hc] [snd hc].

(** *** forward: the action head *)

(** [m[:, i]] and [m[:, -1]]. *)
Fixpoint column (m : matrix) (i : nat) : result vec :=
  match m with
  | [] => Ok []
  | row :: rest =>
      do x <- subscript row i;
      do xs <- column rest i;
      Ok (x :: xs)
  end.

Fixpoint last_column (m : matrix) : result vec :=
  match m with
  | [] => Ok []
  | row :: rest =>
      do x <- match last row with Some x => Ok x | None => Raise IndexError end;
      do xs <- last_column rest;
      Ok (x :: xs)
  end.

(** [v.unsqueeze(1)]. *)
Definition unsqueeze (v : vec) : matrix := map (fun x => [x]) v.

(** [torch.cat([a, b], dim=1)]: the row counts must agree. *)
Definition cat1 (a b : matrix) : result matrix :=
  if (length a =? length b)%nat then Ok (zip_with app a b)
  else Raise RuntimeError.

(** [a * b] on two tensors of one shape, the only case the head meets on a
    network built by [PolicyNet_init]; other shapes are refused. *)
Definition same_shape (a b : matrix) : bool :=
  (length a =? length b)%nat
  && forallb (fun p => (length (fst p) =? length (snd p))%nat) (zip a b).

Definition mmul (a b : matrix) : result matrix :=
  if same_shape a b then Ok (zip_with (zip_with Qmult) a b)
  else Raise RuntimeError.

(** [m.sum(dim=1)]. *)
Definition sum_dim1 (m : matrix) : vec := map tsum m.

(** The vector with a 1 at index [j] among [n] entries. *)
Definition one_hot (n j : nat) : vec :=
  map (fun i => if (i =? j)%nat then 1 else 0) (seq 0 n).

(** A row is one-hot over [k] dimensions: [k] entries, a single 1, zeros
    elsewhere. *)
Definition is_one_hot (k : nat) (row : vec) : Prop :=
  length row = k
  /\ exists j, (j < k)%nat
       /\ forall i, (i < k)%nat -> row !! i = Some (if (i =? j)%nat then 1 else 0).


(** The random choices of one call: for each batch row the category the
    categorical sampler picks, and for each dimension and batch row the
    value the Normal sampler returns. *)
Record draws : Type := mkDraws {
  decision_draw : nat -> nat;
  value_draw : nat -> nat -> Q
}.

(** [OneHotCategorical(logits=decision_logit).sample()]: every row is the
    indicator of one of its categories. *)
Definition sample_decision (d : draws) (decision_logit : matrix) : matrix :=
  imap (fun r row => one_hot (length row) (decision_draw d r mod length row))
       decision_logit.

Section Head.

(** Functions of torch applied to entries: [torch.exp], the log-probability
    of a one-hot row under the categorical distribution of a row of
    logits, and the log-density of [Normal(mean, std)]. *)
Variable texp : Q -> Q.
Variable categorical_log_prob : vec -> vec -> Q.
Variable normal_log_prob : Q -> Q -> Q -> Q.

Definition Normal_log_prob (mean std x : vec) : vec :=
  zip_with (fun ms v => normal_log_prob (fst ms) (snd ms) v) (zip mean std) x.

(** One iteration of the loop of lines 134-141.  [action_values] and
    [actions_log_prob] are None together, so one option holds the pair. *)
Definition values_body (d : draws) (values_mean values_std : matrix)
    (acc : option (matrix * matrix)) (i : nat)
  : result (option (matrix * matrix)) :=
  do mean <- column values_mean i;
  do std <- column values_std i;
  let sample := imap (fun r _ => value_draw d i r) mean in
  match acc with
  | None =>
      let action_values := unsqueeze sample in
      do x <- last_column action_values;
      Ok (Some (action_values, unsqueeze (Normal_log_prob mean std x)))
  | Some (action_values, actions_log_prob) =>
      do action_values' <- cat1 action_values (unsqueeze sample);
      do x <- last_column action_values';
      do actions_log_prob' <-
         cat1 actions_log_prob (unsqueeze (Normal_log_prob mean std x));
      Ok (Some (action_values', actions_log_prob'))
  end.

Fixpoint values_loop (d : draws) (values_mean values_std : matrix)
    (indices : list nat) (acc : option (matrix * matrix))
  : result (option (matrix * matrix)) :=
  match indices with
  | [] => Ok acc
  | i :: rest =>
      do acc' <- values_body d values_mean values_std acc i;
      values_loop d values_mean values_std rest acc'
  end.

(** Lines 144-145: [torch.cat] applied to None is a TypeError. *)
Definition append_noop (net : PolicyNet) (acc : option (matrix * matrix))
  : result (matrix * matrix) :=
  match acc with
  | None => Raise TypeError
  | Some (action_values, actions_log_prob) =>
      do av <- cat1 action_values (zeros2 (batch_size net) 1);
      do alp <- cat1 actions_log_prob (zeros2 (batch_size net) 1);
      Ok (av, alp)
  end.

(** Lines 113-162, from the output [h_1] of the top layer: the decision,
    the scaled action value and the log-probability, per batch row. *)
Definition policy_head (net : PolicyNet) (h_1 : matrix) (d : draws)
  : result (matrix * (vec * vec)) :=
  do decision_logit <- Linear_forward (FC_decision net) h_1;
  do values_mean <- Linear_forward (FC_values_mean net) h_1;
  do values_logstd <- Linear_forward (FC_values_logstd net) h_1;
  let values_std := map (map texp) values_logstd in
  let decision := sample_decision d decision_logit in
  let decision_log_prob := zip_with categorical_log_prob decision_logit decision in
  do acc <- values_loop d values_mean values_std
              (seq 0 (num_actions net - 1)) None;
  do cols <- append_noop net acc;
  do selected_values <- mmul (fst cols) decision;
  do selected_log_prob <- mmul (snd cols) decision;
  let final_action_values :=
    map (fun x => x * act_lim net) (sum_dim1 selected_values) in
  let final_action_log_prob := sum_dim1 selected_log_prob in
  let log_prob := zip_with Qplus decision_log_prob final_action_log_prob in
  Ok (decision, (final_action_values, log_prob)).

(** [PolicyNet.forward]: the network as the call leaves it, and what the
    call returns or raises. *)
Definition forward (net : PolicyNet) (state : matrix)
    (encoding : option matrix) (d : draws)
  : PolicyNet * result (matrix * (vec * vec)) :=
  let net1 := match encoding with
              | Some e => reset net e
              | None => net
              end in
  match recurrent net1 state with
  | Raise e => (net1, Raise e)
  | Ok (h_1, (h1_list, c1_list)) =>
      let net2 := set_state net1 (Some h1_list) (Some c1_list) in
      (net2, policy_head net2 h_1 d)
  end.

End Head.

End Policy.

Import Policy.

(** ** Encoder *)

(** The entries of the encoding are those torch's LSTM computes; what
    [Encoder.forward] adds is the selection of the last layer and the
    squeeze, which act on shapes.  Tensors are followed by their shape. *)

Module EncoderShape.

Abbreviation shape := (list nat) (only parsing).

Record Encoder : Type := mkEncoder {
  input_size : nat;
  enc_batch_size : nat;
  enc_hidden_size : nat;
  enc_num_layers : nat;
  enc_dropout : Q
}.

Definition shape_eqb (a b : list nat) : bool :=
  (length a =? length b) && forallb (fun p => fst p =? snd p) (zip a b).

(** Shape of [h_n] returned by [LSTM(..., batch_first=True)] on an input
    and an optional initial state [(h_0, c_0)]: (num_layers, batch,
    hidden_size) for an input (batch, seq_len, input_size), and
    (num_layers, hidden_size) for an unbatched one. *)
Definition LSTM_h_n (enc : Encoder) (input : list nat)
    (hx : option (list nat * list nat)) : result (list nat) :=
  let check (expected : list nat) :=
    match hx with
    | None => Ok expected
    | Some (h_0, c_0) =>
        if shape_eqb h_0 expected && shape_eqb c_0 expected
        then Ok expected else Raise RuntimeError
    end in
  match input with
  | [batch; _; features] =>
      if features =? input_size enc
      then check [enc_num_layers enc; batch; enc_hidden_size enc]
      else Raise RuntimeError
  | [_; features] =>
      if features =? input_size enc
      then check [enc_num_layers enc; enc_hidden_size enc]
      else Raise RuntimeError
  | _ => Raise RuntimeError
  end.

(** [t[-1, :, :]]. *)
Definition select_last_layer (t : list nat) : result (list nat) :=
  match t with
  | [layers; d1; d2] =>
      if layers =? 0 then Raise IndexError else Ok [d1; d2]
  | _ => Raise IndexError
  end.

(** [t.squeeze(dim)]: the dimension is dropped when its size is 1. *)
Definition squeeze (dim : nat) (t : list nat) : result (list nat) :=
  match t !! dim with
  | None => Raise IndexError
  | Some size => if size =? 1 then Ok (delete dim t) else Ok t
  end.

(** [Encoder.forward]: the shape of the returned encoding. *)
Definition Encoder_forward (enc : Encoder) (input : list nat)
    (h_0 c_0 : option (list nat)) : result (list nat) :=
  do h_n <- match h_0, c_0 with
            | Some h, Some c => LSTM_h_n enc input (Some (h, c))
            | _, _ => LSTM_h_n enc input None
            end;
  do encoding <- select_last_layer h_n;
  squeeze 1 encoding.

End EncoderShape.

Import EncoderShape.

(** ** Concrete instances

    Small networks and an optimizer on which the definitions above are
    run. *)

Module Fixtures.

Local Open Scope Q_scope.

(** A plain gradient-descent optimizer. *)
Definition sgd (lr : Q) : optimizer :=
  {| zero_grad := fun _ => None;
     step := map (fun p =>
               mkParam (zip_with (fun x g => x - lr * g) (p_data p)
                          (default [] (p_grad p)))
                       (p_grad p)) |}.

(** A cell whose new hidden row is the carried hidden row plus the sum of
    the input row, and whose cell state is the carried one: its output
    shows which carry it was given. *)
Definition adding_cell : LSTMCell :=
  fun x hc =>
    Ok (zip_with (fun xr hr => map (fun v => v + tsum xr) hr) x (fst hc),
        snd hc).

Definition demo_weights : init_weights :=
  {| init_cell := fun _ => adding_cell;
     init_decision_W := fun j i => inject_Z (Z.of_nat (j + i));
     init_decision_b := fun j => inject_Z (Z.of_nat j);
     init_mean_W := fun j i => 1 # 2;
     init_mean_b := fun j => 0;
     init_logstd_W := fun j i => 0;
     init_logstd_b := fun j => 1 # 3 |}.

(** [PolicyNet(state_size=1, num_actions=k, act_lim=2, batch_size=1,
    hidden_size=2, num_layers=layers)]. *)
Definition demo_net (k layers : nat) : PolicyNet :=
  PolicyNet_init 1 k 2 1 2 layers (85 # 100) demo_weights.

(** Stand-ins for the entry functions of torch. *)
Definition demo_exp (x : Q) : Q := 1 + x * x.
Definition demo_categorical (logits value : list Q) : Q := - dot logits value.
Definition demo_normal (mean std x : Q) : Q := - ((x - mean) * (x - mean)) / std.

Definition demo_draws (category : nat) : draws :=
  {| decision_draw := fun _ => category;
     value_draw := fun i _ => inject_Z (Z.of_nat (S i)) |}.

Definition demo_forward := forward demo_exp demo_categorical demo_normal.

End Fixtures.

Import Fixtures.

(** ** Notions used to state properties of the code *)

Module Notions.

Local Open Scope Q_scope.

(** [x] to the power [n]. *)
Fixpoint qpow (x : Q) (n : nat) : Q :=
  match n with
  | O => 1
  | S n => x * qpow x n
  end.

(** The discounted sum of a reward sequence: the sum over [j] of
    [GAMMA^j * rewards[j]]. *)
Definition discounted_sum (GAMMA : Q) (rewards : vec) : Q :=
  fold_right Qplus 0 (imap (fun j r => qpow GAMMA j * r) rewards).


(** An entry of a gradient after [clamp_(-1, 1)]. *)
Definition clipped (x : Q) : Prop := -1 <= x /\ x <= 1.

(** Entry [(r, i)] of a tensor of shape (batch, features), 0 outside. *)
Definition entry (m : matrix) (r i : nat) : Q := nth i (nth r m []) 0.

(** What the loop of lines 134-141 has accumulated after [s] iterations
    over [rows] batch rows: the value drawn for each dimension and row,
    and its log-density under the Normal of that dimension and row. *)
Definition drawn_values (d : draws) (rows s : nat) : matrix :=
  map (fun r => map (fun i => value_draw d i r) (seq 0 s)) (seq 0 rows).

Definition drawn_log_prob (normal_log_prob : Q -> Q -> Q -> Q) (d : draws)
    (values_mean values_std : matrix) (rows s : nat) : matrix :=
  map (fun r => map (fun i => normal_log_prob (entry values_mean r i)
                                (entry values_std r i) (value_draw d i r))
                    (seq 0 s))
      (seq 0 rows).

Definition accumulated (normal_log_prob : Q -> Q -> Q -> Q) (d : draws)
    (values_mean values_std : matrix) (rows s : nat)
  : option (matrix * matrix) :=
  match s with
  | O => None
  | S _ => Some (drawn_values d rows s,
                 drawn_log_prob normal_log_prob d values_mean values_std rows s)
  end.

End Notions.

Import Notions.

(** * Verification *)

(** ** Proofs: reward-to-go *)

Section RewardToGoProofs.

Local Open Scope Q_scope.

Variable GAMMA : Q.

Lemma rtg_rec_length rewards : length (rtg_rec GAMMA rewards) = length rewards.
Proof.
  induction rewards as [|r rs IH]; [reflexivity|].
  destruct rs as [|r' rs]; [reflexivity|].
  change (S (length (rtg_rec GAMMA (r' :: rs))) = S (length (r' :: rs))).
  now rewrite IH.
Qed.

Lemma rtg_rec_cons r rs :
  rtg_rec GAMMA (r :: rs) =
  (r + (if (0 <? length rs)%nat then GAMMA * hd 0 (rtg_rec GAMMA rs) else 0))
    :: rtg_rec GAMMA rs.
Proof. destruct rs; reflexivity. Qed.

(** State of the loop once the indices [n-1], ..., [k] have been written. *)
Lemma rtg_loop_suffix rewards m k :
  (k + m = length rewards)%nat ->
  fold_left (rtg_body GAMMA rewards) (rev (seq k m)) (zeros1 (length rewards))
  = zeros1 k ++ rtg_rec GAMMA (drop k rewards).
Proof.
  revert k. induction m as [|m IH]; intros k Hk.
  - simpl. rewrite drop_ge by lia. rewrite app_nil_r. f_equal. lia.
  - simpl seq. simpl rev. rewrite fold_left_app. simpl fold_left.
    rewrite IH by lia.
    destruct (lookup_lt_is_Some_2 rewards k ltac:(lia)) as [r Hr].
    rewrite (drop_S _ _ _ Hr). rewrite rtg_rec_cons.
    unfold rtg_body.
    assert (Hz : zeros1 (S k) = zeros1 k ++ [0]).
    { unfold zeros1. rewrite <- repeat_cons. reflexivity. }
    rewrite Hz. rewrite <- app_assoc. simpl app.
    assert (Hlen : length (zeros1 k) = k) by apply repeat_length.
    rewrite insert_app_r_alt by lia. rewrite Hlen, Nat.sub_diag. simpl.
    f_equal. f_equal.
    rewrite (nth_lookup_Some _ _ _ _ Hr).
    f_equal.
    rewrite length_drop.
    replace (k + 1 <? length rewards)%nat with (0 <? length rewards - S k)%nat.
    2:{ destruct (Nat.ltb_spec 0 (length rewards - S k));
        destruct (Nat.ltb_spec (k + 1) (length rewards)); try reflexivity; lia. }
    destruct (0 <? length rewards - S k)%nat; [|reflexivity].
    f_equal.
    rewrite app_nth2 by lia. rewrite Hlen.
    replace (k + 1 - k)%nat with 1%nat by lia. simpl.
    destruct (rtg_rec GAMMA (drop (S k) rewards)); reflexivity.
Qed.

Lemma reward_to_go_rec rewards :
  reward_to_go GAMMA rewards = rtg_rec GAMMA rewards.
Proof.
  unfold reward_to_go.
  rewrite (rtg_loop_suffix rewards (length rewards) 0) by lia.
  reflexivity.
Qed.

Lemma reward_to_go_length rewards :
  length (reward_to_go GAMMA rewards) = length rewards.
Proof. rewrite reward_to_go_rec. apply rtg_rec_length. Qed.

Lemma rtg_rec_recurrence rewards t :
  (t < length rewards)%nat ->
  nth t (rtg_rec GAMMA rewards) 0
  == nth t rewards 0 + GAMMA * nth (S t) (rtg_rec GAMMA rewards) 0.
Proof.
  revert t. induction rewards as [|r rs IH]; intros t Ht; [simpl in Ht; lia|].
  destruct t as [|t].
  - rewrite rtg_rec_cons. cbn [nth].
    assert (Hhd : forall l : list Q, hd 0 l = nth 0 l 0) by (now intros [|? ?]).
    rewrite Hhd.
    destruct rs as [|r' rs]; [cbn; ring|].
    cbn [length Nat.ltb Nat.leb]. reflexivity.
  - rewrite rtg_rec_cons.
    change (nth (S t) (?x :: ?l) 0) with (nth t l 0).
    change (nth (S (S t)) (?x :: ?l) 0) with (nth (S t) l 0).
    apply IH. simpl in Ht. lia.
Qed.

End RewardToGoProofs.

(** C1. The weights computed by [optimize_model] for one episode have the
    length of the rewards and satisfy [rtg[t] = reward[t] + GAMMA * rtg[t+1]]
    at every index [t], reading [rtg[n]] as 0; for rewards [1,1,1] and
    [GAMMA = 0.5] they are [1.75, 1.5, 1.0]. *)
Theorem reward_to_go_recurrence :
  (forall (GAMMA : Q) (rewards : vec),
      length (reward_to_go GAMMA rewards) = length rewards /\
      nth (length rewards) (reward_to_go GAMMA rewards) 0%Q = 0%Q /\
      forall t, t < length rewards ->
        (nth t (reward_to_go GAMMA rewards) 0
         == nth t rewards 0 + GAMMA * nth (S t) (reward_to_go GAMMA rewards) 0)%Q)
  /\ reward_to_go (1 # 2) [1%Q; 1%Q; 1%Q] = [7 # 4; 3 # 2; 1%Q].
Proof.
  split; [|reflexivity].
  intros GAMMA rewards. split; [apply reward_to_go_length|]. split.
  - apply nth_overflow. rewrite reward_to_go_length. lia.
  - intros t Ht. rewrite reward_to_go_rec. now apply rtg_rec_recurrence.
Qed.

(** ** Proofs: the loss *)

Section LossProofs.

Local Open Scope Q_scope.

Lemma fold_left_Qplus (v : list Q) (a : Q) :
  fold_left Qplus v a == a + fold_right Qplus 0 v.
Proof.
  revert a. induction v as [|x v IH]; intros a; simpl.
  - ring.
  - rewrite IH. ring.
Qed.

Lemma tsum_fold_right (v : list Q) : tsum v == fold_right Qplus 0 v.
Proof. unfold tsum. rewrite fold_left_Qplus. ring. Qed.

Lemma tmul_same_length (a b : list Q) :
  length a = length b -> tmul a b = Ok (zip_with Qmult a b).
Proof. intros H. unfold tmul. rewrite H, Nat.eqb_refl. reflexivity. Qed.

Lemma subscript_Some {A} (l : list A) i x : l !! i = Some x -> subscript l i = Ok x.
Proof. intros H. unfold subscript. now rewrite H. Qed.


(** The loop on a batch of same-length episodes: it raises nothing and
    adds up the contributions of the episodes it visits. *)
Lemma loss_loop_sum GAMMA (lps rws : list (list Q)) :
  Forall2 (fun lp rw => length lp = length rw) lps rws ->
  forall m k acc, (k + m = length lps)%nat ->
  exists v,
    loss_loop lps (map (reward_to_go GAMMA) rws) (seq k m) acc = Ok v
    /\ ((0 < m)%nat -> is_Some v)
    /\ default 0 v
       == default 0 acc
          + fold_right Qplus 0 (drop k (zip_with (episode_objective GAMMA) lps rws)).
Proof.
  intros Hall m. induction m as [|m IH]; intros k acc Hk.
  - exists acc. split; [reflexivity|]. split; [lia|].
    rewrite drop_ge; [simpl; ring|].
    rewrite length_zip_with. lia.
  - assert (Hlen := Forall2_length _ _ _ Hall).
    destruct (lookup_lt_is_Some_2 lps k ltac:(lia)) as [lp Hlp].
    destruct (lookup_lt_is_Some_2 rws k ltac:(lia)) as [rw Hrw].
    assert (Hsame : length lp = length rw)
      by exact (Forall2_lookup_lr _ _ _ _ _ _ Hall Hlp Hrw).
    simpl seq. cbn [loss_loop]. unfold episode_term.
    rewrite (subscript_Some _ _ _ Hlp).
    rewrite (subscript_Some (map (reward_to_go GAMMA) rws) k (reward_to_go GAMMA rw))
      by (rewrite list_lookup_fmap, Hrw; reflexivity).
    cbn [rbind].
    rewrite tmul_same_length by (rewrite reward_to_go_length; exact Hsame).
    cbn [rbind].
    destruct (IH (S k)
               (Some match acc with
                     | None => - tsum (zip_with Qmult lp (reward_to_go GAMMA rw))
                     | Some l => l + - tsum (zip_with Qmult lp (reward_to_go GAMMA rw))
                     end) ltac:(lia)) as (v & Hv & Hsome & Hsum).
    exists v. split; [exact Hv|]. split.
    + intros _. destruct m as [|m]; [|apply Hsome; lia].
      simpl in Hv. injection Hv as <-. eauto.
    + rewrite Hsum.
      assert (Hterm : zip_with (episode_objective GAMMA) lps rws !! k
                      = Some (episode_objective GAMMA lp rw)).
      { rewrite lookup_zip_with, Hlp. simpl. rewrite Hrw. reflexivity. }
      rewrite (drop_S _ _ _ Hterm). cbn [fold_right].
      unfold episode_objective.
      destruct acc; cbn [from_option id]; rewrite tsum_fold_right; ring.
Qed.





End LossProofs.

(** C2. On a non-empty batch of log-probability sequences with rewards of
    the same lengths, the loss [optimize_model] backpropagates is the mean
    over the episodes of minus the sum of [log_prob[t] * rtg[t]]. *)
Theorem loss_is_mean_episode_objective (GAMMA : Q) (batch_log_prob batch_rewards : list (list Q)) :
  batch_log_prob <> [] ->
  Forall2 (fun lp rw => length lp = length rw) batch_log_prob batch_rewards ->
  exists loss,
    optimize_model_loss GAMMA batch_log_prob batch_rewards = Ok loss
    /\ (loss == spec_loss GAMMA batch_log_prob batch_rewards)%Q.
Proof.
  intros Hne Hall. unfold optimize_model_loss.
  destruct (loss_loop_sum GAMMA _ _ Hall (length batch_log_prob) 0 None eq_refl)
    as (v & Hv & Hsome & Hsum).
  rewrite Hv. cbn [rbind].
  destruct Hsome as [l ->].
  { destruct batch_log_prob; [congruence | simpl; lia]. }
  exists (l / inject_Z (Z.of_nat (length batch_log_prob)))%Q.
  split; [reflexivity|].
  unfold spec_loss, mean. rewrite length_zip_with.
  rewrite <- (Forall2_length _ _ _ Hall), Nat.min_id.
  cbn [from_option id] in Hsum. rewrite drop_0 in Hsum. rewrite Hsum.
  apply Qdiv_comp; [ring | reflexivity].
Qed.

(** On an empty batch the loop does not run and [None / tensor] raises. *)
Example optimize_model_loss_empty_batch (GAMMA : Q) (batch_rewards : list (list Q)) :
  optimize_model_loss GAMMA [] batch_rewards = Raise TypeError.
Proof. reflexivity. Qed.

Lemma loss_is_mean_episode_objective_witness :
  exists loss,
    optimize_model_loss (1 # 2) [[-1%Q; -2%Q; -3%Q]; [-1 # 2; -4%Q]]
                                [[1%Q; 1%Q; 1%Q]; [2%Q; 0%Q]] = Ok loss
    /\ (loss == spec_loss (1 # 2) [[-1%Q; -2%Q; -3%Q]; [-1 # 2; -4%Q]]
                                  [[1%Q; 1%Q; 1%Q]; [2%Q; 0%Q]])%Q.
Proof.
  apply loss_is_mean_episode_objective.
  - discriminate.
  - repeat constructor.
Defined.



(** ** Proofs: the update *)

Lemma existsb_requires_grad_detached (batch_log_prob : list tensor) :
  Forall (fun t => requires_grad t = false) batch_log_prob ->
  existsb requires_grad batch_log_prob = false.
Proof.
  induction 1 as [|t ts Ht _ IH]; [reflexivity|].
  simpl. now rewrite Ht, IH.
Qed.

Lemma zero_grad_keeps_data (opt : optimizer) (params : list param) :
  map p_data (map (fun p => mkParam (p_data p) (zero_grad opt (p_grad p))) params)
  = map p_data params.
Proof. rewrite map_map. reflexivity. Qed.

(** C4, as the code behaves.  On a batch whose log-probability tensors are
    all detached from the graph, [optimize_model] raises: at
    [loss.backward()] with a RuntimeError when the loss itself could be
    computed, earlier otherwise.  [optimizer.step()] is not reached and
    the entries of the parameters are those it was called with. *)
Theorem optimize_model_detached_raises (params : list param)
    (dloss : nat -> option (list Q)) (batch_log_prob : list tensor)
    (batch_rewards : list (list Q)) (opt : optimizer) (GAMMA : Q) :
  Forall (fun t => requires_grad t = false) batch_log_prob ->
  (exists e, snd (optimize_model params dloss batch_log_prob batch_rewards opt GAMMA)
             = Raise e)
  /\ (is_ok (optimize_model_loss GAMMA (map data batch_log_prob) batch_rewards) = true ->
      snd (optimize_model params dloss batch_log_prob batch_rewards opt GAMMA)
      = Raise RuntimeError)
  /\ map p_data (fst (optimize_model params dloss batch_log_prob batch_rewards opt GAMMA))
     = map p_data params.
Proof.
  intros Hdet. unfold optimize_model.
  destruct (optimize_model_loss GAMMA (map data batch_log_prob) batch_rewards)
    as [l|e]; cbn [is_ok].
  - rewrite (existsb_requires_grad_detached _ Hdet). cbn [backward fst snd].
    split; [eauto|]. split; [reflexivity|]. apply zero_grad_keeps_data.
  - cbn [fst snd]. split; [eauto|]. split; [discriminate | reflexivity].
Qed.

Lemma optimize_model_detached_raises_witness :
  snd (optimize_model [mkParam [1 # 2; 3%Q] None] (fun _ => None)
         [mkTensor [-1%Q; -2%Q] false] [[1%Q; 1%Q]] (sgd (1 # 10)) (1 # 2))
  = Raise RuntimeError.
Proof.
  apply (optimize_model_detached_raises [mkParam [1 # 2; 3%Q] None] (fun _ => None)
           [mkTensor [-1%Q; -2%Q] false] [[1%Q; 1%Q]] (sgd (1 # 10)) (1 # 2)).
  - repeat constructor.
  - reflexivity.
Defined.

(** C4, as stated, fails: this batch is detached and the call does not
    complete. *)
Lemma optimize_model_detached_not_silent :
  Forall (fun t => requires_grad t = false) [mkTensor [-1%Q; -2%Q] false]
  /\ snd (optimize_model [mkParam [1 # 2; 3%Q] None] (fun _ => None)
            [mkTensor [-1%Q; -2%Q] false] [[1%Q; 1%Q]] (sgd (1 # 10)) (1 # 2))
     <> Ok tt.
Proof.
  split; [repeat constructor|].
  vm_compute. discriminate.
Qed.

(** With an attached batch the same call clips the gradient and applies
    the step. *)
Example optimize_model_attached_updates :
  optimize_model [mkParam [1 # 2; 3%Q] None] (fun _ => Some [5%Q; -1 # 4])
    [mkTensor [-1%Q; -2%Q] true] [[1%Q; 1%Q]] (sgd 1) (1 # 2)
  = ([mkParam [(1 # 2) - 1 * 1; 3 - 1 * (-1 # 4)]%Q (Some [1%Q; -1 # 4])], Ok tt).
Proof. reflexivity. Qed.

(** ** Proofs: the recurrent state of PolicyNet *)

Section StateProofs.

Local Open Scope Q_scope.

Lemma scale_zeros2 (b h : nat) (z : Z) :
  scale (zeros2 b h) (inject_Z z) = zeros2 b h.
Proof.
  unfold scale, zeros2, zeros1.
  induction b as [|b IHb]; [reflexivity|].
  cbn [repeat map]. rewrite IHb. f_equal.
  clear IHb. induction h as [|h IHh]; [reflexivity|].
  cbn [repeat map]. rewrite IHh. reflexivity.
Qed.

(** What the reset leaves in the two lists: one slot each. *)
Lemma reset_lists (net : PolicyNet) (e : list (list Q)) :
  h_list (reset net e) = Some [e]
  /\ c_list (reset net e) = Some [zeros2 (batch_size net) (hidden_size net)].
Proof.
  unfold reset. cbn [set_state h_list c_list]. rewrite scale_zeros2.
  split; reflexivity.
Qed.

Lemma reset_set_state (net : PolicyNet) h c (e : list (list Q)) :
  reset (set_state net h c) e = reset net e.
Proof. reflexivity. Qed.

Lemma reset_reset (net : PolicyNet) (e' e : list (list Q)) :
  reset (reset net e') e = reset net e.
Proof. reflexivity. Qed.

Lemma set_state_set_state (net : PolicyNet) h c h' c' :
  set_state (set_state net h c) h' c' = set_state net h' c'.
Proof. reflexivity. Qed.

(** The layers above the first: each runs its own cell on the output of
    the layer below, with the carry stored in slot 0. *)
Lemma following_layers_spec (net : PolicyNet) (h0 c0 : list (list Q)) :
  stored (h_list net) 0 = Ok h0 ->
  stored (c_list net) 0 = Ok c0 ->
  forall m k x H C h_1 H' C',
    length H = k -> length C = k -> last H = Some x ->
    following_layers net (seq k m) x H C = Ok (h_1, (H', C')) ->
    length H' = (k + m)%nat /\ length C' = (k + m)%nat
    /\ last H' = Some h_1
    /\ (forall i, (i < k)%nat -> H' !! i = H !! i /\ C' !! i = C !! i)
    /\ forall i, (k <= i < k + m)%nat ->
         exists cell below h c,
           cell_list net !! i = Some cell
           /\ H' !! (i - 1)%nat = Some below
           /\ cell below (h0, c0) = Ok (h, c)
           /\ H' !! i = Some h /\ C' !! i = Some c.
Proof.
  intros Hh Hc m. induction m as [|m IH]; intros k x H C h_1 H' C' HH HC Hlast Hrun.
  - simpl in Hrun. injection Hrun as <- <- <-.
    rewrite Nat.add_0_r. repeat split; try assumption; lia.
  - cbn [seq following_layers] in Hrun. rewrite Hh, Hc in Hrun.
    unfold subscript in Hrun.
    destruct (cell_list net !! k) as [cell|] eqn:Hcell; cbn [rbind] in Hrun;
      [|discriminate].
    destruct (cell x (h0, c0)) as [[h c]|] eqn:Hstep; cbn [rbind fst snd] in Hrun;
      [|discriminate].
    destruct (IH (S k) h (H ++ [h]) (C ++ [c]) h_1 H' C') as (L1 & L2 & L3 & L4 & L5).
    { rewrite length_app. simpl. lia. }
    { rewrite length_app. simpl. lia. }
    { apply last_snoc. }
    { exact Hrun. }
    assert (Hk : H' !! k = Some h /\ C' !! k = Some c).
    { destruct (L4 k ltac:(lia)) as [-> ->].
      rewrite !lookup_app_r by lia. rewrite HH, HC, Nat.sub_diag. split; reflexivity. }
    assert (Hpre : forall i, (i < k)%nat -> H' !! i = H !! i /\ C' !! i = C !! i).
    { intros i Hi. destruct (L4 i ltac:(lia)) as [-> ->].
      rewrite !lookup_app_l by lia. split; reflexivity. }
    split; [lia|]. split; [lia|]. split; [exact L3|]. split; [exact Hpre|].
    intros i Hi.
    destruct (Nat.eq_dec i k) as [->|Hne]; [|apply L5; lia].
    exists cell, x, h, c. split; [exact Hcell|]. split; [|tauto].
    rewrite last_lookup, HH in Hlast.
    destruct k as [|k]; [destruct H; discriminate|].
    replace (S k - 1)%nat with k by lia.
    destruct (Hpre k ltac:(lia)) as [-> _]. exact Hlast.
Qed.

(** The whole stack, first layer included. *)
Lemma recurrent_spec (net : PolicyNet) (state h0 c0 h_1 : list (list Q)) H' C' :
  stored (h_list net) 0 = Ok h0 ->
  stored (c_list net) 0 = Ok c0 ->
  recurrent net state = Ok (h_1, (H', C')) ->
  length H' = S (num_layers net - 1) /\ length C' = S (num_layers net - 1)
  /\ last H' = Some h_1
  /\ (exists cell h c,
        cell_list net !! 0%nat = Some cell
        /\ cell state (h0, c0) = Ok (h, c)
        /\ H' !! 0%nat = Some h /\ C' !! 0%nat = Some c)
  /\ forall i, (1 <= i < num_layers net)%nat ->
       exists cell below h c,
         cell_list net !! i = Some cell
         /\ H' !! (i - 1)%nat = Some below
         /\ cell below (h0, c0) = Ok (h, c)
         /\ H' !! i = Some h /\ C' !! i = Some c.
Proof.
  intros Hh Hc Hrun. unfold recurrent, first_layer in Hrun.
  rewrite Hh, Hc in Hrun. unfold subscript in Hrun.
  destruct (cell_list net !! 0%nat) as [cell|] eqn:Hcell; cbn [rbind] in Hrun;
    [|discriminate].
  destruct (cell state (h0, c0)) as [[h c]|] eqn:Hstep; cbn [rbind fst snd] in Hrun;
    [|discriminate].
  destruct (following_layers_spec net h0 c0 Hh Hc _ 1%nat h [h] [c] h_1 H' C'
              eq_refl eq_refl eq_refl Hrun) as (L1 & L2 & L3 & L4 & L5).
  split; [exact L1|]. split; [exact L2|]. split; [exact L3|]. split.
  - exists cell, h, c. destruct (L4 0%nat ltac:(lia)) as [-> ->]. auto.
  - intros i Hi. apply L5. lia.
Qed.

(** The stack reads slot 0 of the stored lists and nothing else of them. *)
Lemma following_layers_slot0 (net : PolicyNet) h0 c0 hs cs hs' cs' idx x H C :
  following_layers (set_state net (Some (h0 :: hs')) (Some (c0 :: cs'))) idx x H C
  = following_layers (set_state net (Some (h0 :: hs)) (Some (c0 :: cs))) idx x H C.
Proof.
  revert x H C. induction idx as [|i idx IH]; intros x H C; [reflexivity|].
  cbn [following_layers set_state cell_list h_list c_list stored subscript].
  destruct (subscript (cell_list net) i) as [cell|]; cbn [rbind]; [|reflexivity].
  change (subscript (h0 :: hs') 0) with (Ok (A:=list (list Q)) h0).
  change (subscript (c0 :: cs') 0) with (Ok (A:=list (list Q)) c0).
  change (subscript (h0 :: hs) 0) with (Ok (A:=list (list Q)) h0).
  change (subscript (c0 :: cs) 0) with (Ok (A:=list (list Q)) c0).
  cbn [rbind]. destruct (cell x (h0, c0)); cbn [rbind]; [apply IH | reflexivity].
Qed.

Lemma recurrent_slot0 (net : PolicyNet) h0 c0 hs cs hs' cs' state :
  recurrent (set_state net (Some (h0 :: hs')) (Some (c0 :: cs'))) state
  = recurrent (set_state net (Some (h0 :: hs)) (Some (c0 :: cs))) state.
Proof.
  unfold recurrent.
  assert (Hfirst : first_layer (set_state net (Some (h0 :: hs')) (Some (c0 :: cs'))) state
                   = first_layer (set_state net (Some (h0 :: hs)) (Some (c0 :: cs))) state)
    by reflexivity.
  rewrite Hfirst.
  destruct (first_layer (set_state net (Some (h0 :: hs)) (Some (c0 :: cs))) state);
    cbn [rbind]; [|reflexivity].
  apply following_layers_slot0.
Qed.

End StateProofs.

Section ForwardStateProofs.

Variable texp : Q -> Q.
Variable categorical_log_prob : list Q -> list Q -> Q.
Variable normal_log_prob : Q -> Q -> Q -> Q.

Let fwd := forward texp categorical_log_prob normal_log_prob.

Lemma set_state_same (net : PolicyNet) :
  set_state net (h_list net) (c_list net) = net.
Proof. destruct net; reflexivity. Qed.

Lemma forward_state_after (net : PolicyNet) state encoding d h_1 H' C' :
  recurrent match encoding with Some e => reset net e | None => net end state
  = Ok (h_1, (H', C')) ->
  h_list (fst (fwd net state encoding d)) = Some H'
  /\ c_list (fst (fwd net state encoding d)) = Some C'.
Proof.
  intros Hrun. unfold fwd, forward. rewrite Hrun. split; reflexivity.
Qed.

(** The network a reset call leaves does not depend on the lists stored
    before the call. *)
Lemma forward_reset_forgets (net : PolicyNet) h c state e d :
  fst (fwd (set_state net h c) state (Some e) d) = fst (fwd net state (Some e) d).
Proof. reflexivity. Qed.

Lemma forward_reset_twice (net : PolicyNet) state e d1 d2 :
  fst (fwd (fst (fwd net state (Some e) d1)) state (Some e) d2)
  = fst (fwd net state (Some e) d1).
Proof.
  unfold fwd, forward.
  destruct (recurrent (reset net e) state) as [[h_1 [H' C']]|err] eqn:Hrun;
    cbn [fst].
  - rewrite reset_set_state, reset_reset, Hrun. reflexivity.
  - rewrite reset_reset, Hrun. reflexivity.
Qed.

(** First step after a reset: every layer above the first is given the
    encoding and the zero cell state as its carry. *)
Lemma reset_first_step_carry (net : PolicyNet) (state e h_1 : list (list Q)) H' C' :
  recurrent (reset net e) state = Ok (h_1, (H', C')) ->
  forall i, 1 <= i < num_layers net ->
    exists cell below h c,
      cell_list net !! i = Some cell
      /\ H' !! (i - 1) = Some below
      /\ cell below (e, zeros2 (batch_size net) (hidden_size net)) = Ok (h, c)
      /\ H' !! i = Some h /\ C' !! i = Some c.
Proof.
  intros Hrun.
  destruct (reset_lists net e) as [Hh Hc].
  refine (proj2 (proj2 (proj2 (proj2
            (recurrent_spec (reset net e) state e _ h_1 H' C' _ _ Hrun))))).
  - rewrite Hh. reflexivity.
  - rewrite Hc. reflexivity.
Qed.

End ForwardStateProofs.

(** C3, on the code.  With [num_layers = 2], the reset stores one slot per
    list, and on the first step layer 1 is given the encoding [5, 7] as
    its hidden carry: its cell returns [19, 21], where a zero hidden state
    would give [14, 14]. *)
Theorem reset_layer1_carry_is_encoding :
  num_layers (demo_net 3 2) = 2
  /\ h_list (reset (demo_net 3 2) [[5%Q; 7%Q]]) = Some [[[5%Q; 7%Q]]]
  /\ c_list (reset (demo_net 3 2) [[5%Q; 7%Q]]) = Some [[[0%Q; 0%Q]]]
  /\ h_list (fst (demo_forward (demo_net 3 2) [[1%Q]] (Some [[5%Q; 7%Q]]) (demo_draws 0)))
     = Some [[[6%Q; 8%Q]]; [[19%Q; 21%Q]]]
  /\ adding_cell [[6%Q; 8%Q]] ([[5%Q; 7%Q]], [[0%Q; 0%Q]]) = Ok ([[19%Q; 21%Q]], [[0%Q; 0%Q]])
  /\ adding_cell [[6%Q; 8%Q]] ([[0%Q; 0%Q]], [[0%Q; 0%Q]]) = Ok ([[14%Q; 14%Q]], [[0%Q; 0%Q]]).
Proof. repeat split; vm_compute; reflexivity. Qed.

(** C6. In a step call whose layers all run, the lists stored by the call
    are such that every layer [i >= 1] applied its cell to the new hidden
    output of layer [i-1] with the pair found in slot 0 of the lists
    stored before the call as its carry; the other slots of those lists,
    layer [i]'s own previous state among them, have no influence. *)
Theorem step_layers_carry_slot0 (texp : Q -> Q)
    (categorical_log_prob : list Q -> list Q -> Q)
    (normal_log_prob : Q -> Q -> Q -> Q)
    (net : PolicyNet) (state : list (list Q)) (d : draws)
    (h0 c0 h_1 : list (list Q)) (hs cs H' C' : list (list (list Q))) :
  h_list net = Some (h0 :: hs) ->
  c_list net = Some (c0 :: cs) ->
  recurrent net state = Ok (h_1, (H', C')) ->
  h_list (fst (forward texp categorical_log_prob normal_log_prob net state None d)) = Some H'
  /\ c_list (fst (forward texp categorical_log_prob normal_log_prob net state None d)) = Some C'
  /\ (forall i, 1 <= i < num_layers net ->
        exists cell below h c,
          cell_list net !! i = Some cell
          /\ H' !! (i - 1) = Some below
          /\ cell below (h0, c0) = Ok (h, c)
          /\ H' !! i = Some h /\ C' !! i = Some c)
  /\ (forall hs' cs',
        recurrent (set_state net (Some (h0 :: hs')) (Some (c0 :: cs'))) state
        = Ok (h_1, (H', C'))).
Proof.
  intros Hh Hc Hrun.
  destruct (forward_state_after texp categorical_log_prob normal_log_prob
              net state None d h_1 H' C' Hrun) as [E1 E2].
  split; [exact E1|]. split; [exact E2|]. split.
  - refine (proj2 (proj2 (proj2 (proj2
              (recurrent_spec net state h0 c0 h_1 H' C' _ _ Hrun))))).
    + rewrite Hh. reflexivity.
    + rewrite Hc. reflexivity.
  - intros hs' cs'. rewrite (recurrent_slot0 net h0 c0 hs cs hs' cs').
    rewrite <- Hh, <- Hc, set_state_same. exact Hrun.
Qed.

(** C7. Two reset calls in a row with the same state and encoding leave
    the lists [h_list] and [c_list] that one call leaves, whatever the two
    calls draw and whatever they return. *)
Theorem reset_idempotent (texp : Q -> Q)
    (categorical_log_prob : list Q -> list Q -> Q)
    (normal_log_prob : Q -> Q -> Q -> Q)
    (net : PolicyNet) (s e : list (list Q)) (d1 d2 : draws) :
  h_list (fst (forward texp categorical_log_prob normal_log_prob
                 (fst (forward texp categorical_log_prob normal_log_prob
                         net s (Some e) d1)) s (Some e) d2))
  = h_list (fst (forward texp categorical_log_prob normal_log_prob net s (Some e) d1))
  /\ c_list (fst (forward texp categorical_log_prob normal_log_prob
                    (fst (forward texp categorical_log_prob normal_log_prob
                            net s (Some e) d1)) s (Some e) d2))
     = c_list (fst (forward texp categorical_log_prob normal_log_prob net s (Some e) d1)).
Proof. rewrite forward_reset_twice. split; reflexivity. Qed.

(** ** Proofs: the action head *)

Section HeadLemmas.

Local Open Scope Q_scope.

Lemma rbind_Ok {A B} (m : result A) (f : A -> result B) (b : B) :
  rbind m f = Ok b -> exists a, m = Ok a /\ f a = Ok b.
Proof. destruct m as [a|e]; cbn [rbind]; [eauto | discriminate]. Qed.

Lemma rbind_no_TypeError {A B} (m : result A) (f : A -> result B) :
  m <> Raise TypeError -> (forall a, f a <> Raise TypeError) ->
  rbind m f <> Raise TypeError.
Proof. destruct m as [a|e]; cbn [rbind]; [auto | congruence]. Qed.

Lemma Linear_forward_no_TypeError L x : Linear_forward L x <> Raise TypeError.
Proof. unfold Linear_forward. destruct (forallb _ x); discriminate. Qed.

Lemma cat1_no_TypeError a b : cat1 a b <> Raise TypeError.
Proof. unfold cat1. destruct (_ =? _)%nat; discriminate. Qed.

Lemma mmul_no_TypeError a b : mmul a b <> Raise TypeError.
Proof. unfold mmul. destruct (same_shape a b); discriminate. Qed.

Lemma subscript_no_TypeError {A} (l : list A) i : subscript l i <> Raise TypeError.
Proof. unfold subscript. destruct (l !! i); discriminate. Qed.

Lemma column_no_TypeError m i : column m i <> Raise TypeError.
Proof.
  induction m as [|row m IH]; cbn [column]; [discriminate|].
  apply rbind_no_TypeError; [apply subscript_no_TypeError | intros x].
  apply rbind_no_TypeError; [exact IH | discriminate].
Qed.

Lemma last_column_no_TypeError m : last_column m <> Raise TypeError.
Proof.
  induction m as [|row m IH]; cbn [last_column]; [discriminate|].
  apply rbind_no_TypeError; [destruct (last row); discriminate | intros x].
  apply rbind_no_TypeError; [exact IH | discriminate].
Qed.

Lemma Linear_init_forward_rows in_f out_f W b (x m : list (list Q)) :
  Linear_forward (Linear_init in_f out_f W b) x = Ok m ->
  length m = length x /\ forall r row, m !! r = Some row -> length row = out_f.
Proof.
  unfold Linear_forward, Linear_init. cbn [in_features weight bias].
  destruct (forallb _ x); [|discriminate].
  intros [= <-]. split; [apply length_map|].
  intros r row. rewrite list_lookup_fmap.
  destruct (x !! r) as [xr|]; [|discriminate]. cbn. intros [= <-].
  rewrite length_zip_with, !length_map, length_seq. lia.
Qed.

Lemma one_hot_length n j : length (one_hot n j) = n.
Proof. unfold one_hot. now rewrite length_map, length_seq. Qed.

Lemma one_hot_lookup n j i :
  (i < n)%nat -> one_hot n j !! i = Some (if (i =? j)%nat then 1 else 0).
Proof.
  intros Hi. unfold one_hot. rewrite list_lookup_fmap, lookup_seq_lt by exact Hi.
  reflexivity.
Qed.

Lemma one_hot_is_one_hot k j : (j < k)%nat -> is_one_hot k (one_hot k j).
Proof.
  intros Hj. split; [apply one_hot_length|].
  exists j. split; [exact Hj|]. intros i Hi. now apply one_hot_lookup.
Qed.

(** The product with an indicator row, summed, is the entry it points at. *)
Lemma indicator_sum (v : list Q) (j : nat) : forall s n,
  length v = n ->
  fold_right Qplus 0
    (zip_with Qmult v (map (fun i => if (i =? j)%nat then 1 else 0) (seq s n)))
  == if ((s <=? j) && (j <? s + n))%nat then nth (j - s) v 0 else 0.
Proof.
  induction v as [|x v IH]; intros s n Hn.
  - simpl in Hn. subst n. simpl.
    destruct (Nat.leb_spec s j), (Nat.ltb_spec j (s + 0)); cbn; try reflexivity; lia.
  - destruct n as [|n]; [discriminate|]. injection Hn as Hn.
    cbn [seq map zip_with fold_right]. rewrite (IH (S s) n Hn).
    destruct (Nat.eqb_spec s j) as [->|Hne].
    + replace (S j <=? j)%nat with false by (symmetry; apply Nat.leb_gt; lia).
      rewrite Nat.leb_refl.
      replace (j <? j + S n)%nat with true by (symmetry; apply Nat.ltb_lt; lia).
      rewrite Nat.sub_diag. cbn. ring.
    + destruct (Nat.leb_spec (S s) j), (Nat.leb_spec s j); try lia; cbn [andb].
      * replace (j <? s + S n)%nat with (j <? S s + n)%nat
          by (f_equal; lia).
        destruct (j <? S s + n)%nat; [|ring].
        replace (j - s)%nat with (S (j - S s)) by lia. cbn [nth]. ring.
      * ring.
Qed.

Lemma masked_sum_selects (v : list Q) (j : nat) :
  tsum (zip_with Qmult v (one_hot (length v) j)) == nth j v 0.
Proof.
  rewrite tsum_fold_right. unfold one_hot. rewrite indicator_sum by reflexivity.
  cbn [Nat.leb andb]. rewrite Nat.sub_0_r. cbn [Nat.add].
  destruct (Nat.ltb_spec j (length v)); [reflexivity|].
  rewrite nth_overflow by lia. reflexivity.
Qed.

Lemma lookup_repeat {A} (x : A) (n i : nat) :
  (i < n)%nat -> repeat x n !! i = Some x.
Proof.
  revert i. induction n as [|n IH]; intros i Hi; [lia|].
  destruct i as [|i]; [reflexivity|]. cbn. apply IH. lia.
Qed.

Lemma cat1_Ok (a b m : list (list Q)) :
  cat1 a b = Ok m -> length a = length b /\ m = zip_with app a b.
Proof.
  unfold cat1. destruct (Nat.eqb_spec (length a) (length b)); [|discriminate].
  intros [= <-]. auto.
Qed.

Lemma mmul_Ok (a b m : list (list Q)) :
  mmul a b = Ok m ->
  length a = length b
  /\ (forall r ar br, a !! r = Some ar -> b !! r = Some br -> length ar = length br)
  /\ m = zip_with (zip_with Qmult) a b.
Proof.
  unfold mmul, same_shape.
  destruct (Nat.eqb_spec (length a) (length b)) as [Hlen|]; [|discriminate].
  cbn [andb]. destruct (forallb _ (zip a b)) eqn:Hall; [|discriminate].
  intros [= <-]. split; [exact Hlen|]. split; [|reflexivity].
  intros r ar br Ha Hb.
  rewrite forallb_forall in Hall.
  specialize (Hall (ar, br)). cbn [fst snd] in Hall.
  apply Nat.eqb_eq, Hall, list_elem_of_In, list_elem_of_lookup.
  exists r. rewrite lookup_zip_with, Ha. cbn. rewrite Hb. reflexivity.
Qed.

(** The no-op column: a row that ends with the appended 0, masked by the
    indicator of the last dimension, sums to 0. *)
Lemma noop_selected (m0 m sel decision : list (list Q)) (bs k r : nat) :
  cat1 m0 (zeros2 bs 1) = Ok m ->
  mmul m decision = Ok sel ->
  (1 <= k)%nat ->
  decision !! r = Some (one_hot k (k - 1)) ->
  exists v, sum_dim1 sel !! r = Some v /\ v == 0.
Proof.
  intros Hcat Hmul Hk Hrow.
  apply cat1_Ok in Hcat as [Hlen0 ->].
  apply mmul_Ok in Hmul as (Hlen & Hrows & ->).
  assert (Hr : (r < length decision)%nat) by (eapply lookup_lt_Some; exact Hrow).
  rewrite length_zip_with in Hlen.
  destruct (lookup_lt_is_Some_2 m0 r ltac:(lia)) as [a Ha].
  assert (Hz : zeros2 bs 1 !! r = Some [0]).
  { unfold zeros2 in *. rewrite repeat_length in Hlen0. apply lookup_repeat. lia. }
  assert (Hm : zip_with app m0 (zeros2 bs 1) !! r = Some (a ++ [0])).
  { rewrite lookup_zip_with, Ha. cbn. rewrite Hz. reflexivity. }
  specialize (Hrows r _ _ Hm Hrow). rewrite one_hot_length in Hrows.
  exists (tsum (zip_with Qmult (a ++ [0]) (one_hot k (k - 1)))). split.
  - unfold sum_dim1. rewrite list_lookup_fmap, lookup_zip_with, Hm. cbn.
    rewrite Hrow. reflexivity.
  - rewrite <- Hrows at 1. rewrite masked_sum_selects.
    rewrite length_app in Hrows. cbn in Hrows.
    replace (k - 1)%nat with (length a) by lia.
    rewrite app_nth2 by lia. rewrite Nat.sub_diag. reflexivity.
Qed.

End HeadLemmas.

Section HeadProofs.

Local Open Scope Q_scope.

Variable texp : Q -> Q.
Variable categorical_log_prob : list Q -> list Q -> Q.
Variable normal_log_prob : Q -> Q -> Q -> Q.

Let head := policy_head texp categorical_log_prob normal_log_prob.
Let loop := values_loop normal_log_prob.

Lemma policy_head_Ok (net : PolicyNet) (h_1 : list (list Q)) (d : draws)
    decision values log_prob :
  head net h_1 d = Ok (decision, (values, log_prob)) ->
  exists decision_logit values_mean values_std acc cols sv sl,
    Linear_forward (FC_decision net) h_1 = Ok decision_logit
    /\ decision = sample_decision d decision_logit
    /\ loop d values_mean values_std (seq 0 (num_actions net - 1)) None = Ok acc
    /\ append_noop net acc = Ok cols
    /\ mmul (fst cols) decision = Ok sv
    /\ mmul (snd cols) decision = Ok sl
    /\ values = map (fun x => x * act_lim net) (sum_dim1 sv)
    /\ log_prob = zip_with Qplus
                    (zip_with categorical_log_prob decision_logit decision)
                    (sum_dim1 sl).
Proof.
  unfold head, policy_head. intros H.
  apply rbind_Ok in H as (decision_logit & Hdl & H).
  apply rbind_Ok in H as (values_mean & _ & H).
  apply rbind_Ok in H as (values_logstd & _ & H).
  apply rbind_Ok in H as (acc & Hacc & H).
  apply rbind_Ok in H as (cols & Hcols & H).
  apply rbind_Ok in H as (sv & Hsv & H).
  apply rbind_Ok in H as (sl & Hsl & H).
  injection H as <- <- <-.
  exists decision_logit, values_mean, (map (map texp) values_logstd), acc, cols, sv, sl.
  repeat split; assumption.
Qed.

Lemma values_body_no_TypeError d vm vs acc i :
  values_body normal_log_prob d vm vs acc i <> Raise TypeError.
Proof.
  unfold values_body.
  repeat (apply rbind_no_TypeError; [apply column_no_TypeError | intros ?]).
  destruct acc as [[av alp]|].
  - apply rbind_no_TypeError; [apply cat1_no_TypeError | intros ?].
    apply rbind_no_TypeError; [apply last_column_no_TypeError | intros ?].
    apply rbind_no_TypeError; [apply cat1_no_TypeError | discriminate].
  - apply rbind_no_TypeError; [apply last_column_no_TypeError | discriminate].
Qed.

Lemma values_loop_no_TypeError d vm vs idx acc :
  values_loop normal_log_prob d vm vs idx acc <> Raise TypeError.
Proof.
  revert acc. induction idx as [|i idx IH]; intros acc; cbn [values_loop];
    [discriminate|].
  apply rbind_no_TypeError; [apply values_body_no_TypeError | exact IH].
Qed.

(** The loop leaves None only when it has not run. *)
Lemma values_body_Some d values_mean values_std acc i acc' :
  values_body normal_log_prob d values_mean values_std acc i = Ok acc' ->
  is_Some acc'.
Proof.
  unfold values_body. intros H.
  apply rbind_Ok in H as (mean & _ & H).
  apply rbind_Ok in H as (std & _ & H).
  destruct acc as [[av alp]|].
  - apply rbind_Ok in H as (? & _ & H).
    apply rbind_Ok in H as (? & _ & H).
    apply rbind_Ok in H as (? & _ & H).
    injection H as <-. eauto.
  - apply rbind_Ok in H as (? & _ & H).
    injection H as <-. eauto.
Qed.

Lemma values_loop_Some d values_mean values_std idx acc acc' :
  loop d values_mean values_std idx acc = Ok acc' ->
  is_Some acc \/ idx <> [] -> is_Some acc'.
Proof.
  unfold loop. revert acc. induction idx as [|i idx IH]; intros acc H Hor.
  - simpl in H. injection H as <-. destruct Hor as [?|?]; [assumption | congruence].
  - cbn [values_loop] in H. apply rbind_Ok in H as (acc1 & Hbody & H).
    apply (IH acc1 H). left. eapply values_body_Some. exact Hbody.
Qed.

Lemma values_loop_empty d values_mean values_std :
  loop d values_mean values_std [] None = Ok None.
Proof. reflexivity. Qed.

Lemma append_noop_Ok (net : PolicyNet) acc cols :
  append_noop net acc = Ok cols ->
  exists av alp,
    acc = Some (av, alp)
    /\ cat1 av (zeros2 (batch_size net) 1) = Ok (fst cols)
    /\ cat1 alp (zeros2 (batch_size net) 1) = Ok (snd cols).
Proof.
  unfold append_noop. destruct acc as [[av alp]|]; [|discriminate].
  intros H.
  apply rbind_Ok in H as (x & Hx & H).
  apply rbind_Ok in H as (y & Hy & H).
  injection H as <-. exists av, alp. auto.
Qed.

(** A head that returns was given at least two action dimensions. *)
Lemma policy_head_Ok_two_actions (net : PolicyNet) h_1 d out :
  head net h_1 d = Ok out -> (2 <= num_actions net)%nat.
Proof.
  destruct out as [decision [values log_prob]]. intros H.
  apply policy_head_Ok in H
    as (dl & vm & vs & acc & cols & sv & sl & _ & _ & Hloop & Happ & _).
  apply append_noop_Ok in Happ as (av & alp & -> & _).
  destruct (num_actions net) as [|[|k]]; [| |lia];
    cbn in Hloop; discriminate.
Qed.

(** With two action dimensions or more, the loop has run when the no-op
    column is appended: [torch.cat] is not applied to None. *)
Lemma policy_head_no_TypeError (net : PolicyNet) h_1 d :
  (2 <= num_actions net)%nat -> head net h_1 d <> Raise TypeError.
Proof.
  intros Hk. unfold head, policy_head.
  apply rbind_no_TypeError; [apply Linear_forward_no_TypeError | intros dl].
  apply rbind_no_TypeError; [apply Linear_forward_no_TypeError | intros a0].
  apply rbind_no_TypeError; [apply Linear_forward_no_TypeError | intros a1].
  destruct (values_loop normal_log_prob d a0 (map (map texp) a1)
              (seq 0 (num_actions net - 1)) None) as [acc|e] eqn:Hrun.
  2:{ cbn [rbind]. intros [= ->]. revert Hrun. apply values_loop_no_TypeError. }
  cbn [rbind].
  assert (Hsome : is_Some acc).
  { apply (values_loop_Some d a0 (map (map texp) a1) _ None acc Hrun).
    right. destruct (num_actions net) as [|[|k]]; [lia|lia|]. cbn. discriminate. }
  destruct Hsome as [[av alp] ->].
  apply rbind_no_TypeError.
  { cbn [append_noop].
    repeat (apply rbind_no_TypeError; [apply cat1_no_TypeError | intros ?]).
    discriminate. }
  intros cols.
  repeat (apply rbind_no_TypeError; [apply mmul_no_TypeError | intros ?]).
  discriminate.
Qed.

Let fwd := forward texp categorical_log_prob normal_log_prob.

Lemma forward_Ok (net net' : PolicyNet) state encoding d out :
  fwd net state encoding d = (net', Ok out) ->
  exists h_1 hl cl,
    recurrent match encoding with Some e => reset net e | None => net end state
    = Ok (h_1, (hl, cl))
    /\ net' = set_state match encoding with Some e => reset net e | None => net end
                (Some hl) (Some cl)
    /\ head net' h_1 d = Ok out.
Proof.
  unfold fwd, forward, head.
  destruct (recurrent _ state) as [[h_1 [hl cl]]|e]; [|discriminate].
  intros [= <- Hhead]. exists h_1, hl, cl. auto.
Qed.

Lemma recurrent_last (net : PolicyNet) state h_1 H' C' :
  recurrent net state = Ok (h_1, (H', C')) -> last H' = Some h_1.
Proof.
  intros Hrun.
  destruct (stored (h_list net) 0) as [h0|e1] eqn:Hh.
  2:{ unfold recurrent, first_layer in Hrun. rewrite Hh in Hrun.
      destruct (subscript (cell_list net) 0); discriminate. }
  destruct (stored (c_list net) 0) as [c0|e2] eqn:Hc.
  2:{ unfold recurrent, first_layer in Hrun. rewrite Hh, Hc in Hrun.
      destruct (subscript (cell_list net) 0); discriminate. }
  exact (proj1 (proj2 (proj2 (recurrent_spec net state h0 c0 h_1 H' C' Hh Hc Hrun)))).
Qed.

Lemma sample_decision_lookup d (decision_logit : list (list Q)) r row :
  sample_decision d decision_logit !! r = Some row ->
  exists logits,
    decision_logit !! r = Some logits
    /\ row = one_hot (length logits) (decision_draw d r mod length logits).
Proof.
  unfold sample_decision. rewrite list_lookup_imap.
  destruct (decision_logit !! r) as [logits|]; [|discriminate].
  cbn. intros [= <-]. eauto.
Qed.

End HeadProofs.

(** *** The head returns on well-shaped inputs *)

Section HeadReturns.

Local Open Scope Q_scope.

Variable texp : Q -> Q.
Variable categorical_log_prob : list Q -> list Q -> Q.
Variable normal_log_prob : Q -> Q -> Q -> Q.

Lemma has_shape_lookup r c (m : list (list Q)) i row :
  has_shape r c m -> m !! i = Some row -> length row = c.
Proof. intros [_ H] Hi. exact (proj1 (Forall_lookup _ _) H i row Hi). Qed.










Lemma map_map_shape (f : Q -> Q) (m : list (list Q)) r c :
  has_shape r c m -> has_shape r c (map (map f) m).
Proof.
  intros [Hr Hrows]. split; [now rewrite length_map|].
  apply Forall_fmap. eapply Forall_impl; [exact Hrows|].
  intros row Hrow. cbn. now rewrite length_map.
Qed.





End HeadReturns.

(** C5. When [forward] returns on a network built with [num_actions = k],
    every row of the decision is one-hot over [k] dimensions; and for a
    batch row whose decision has its 1 at dimension [k-1], the scaled
    action value is 0 and the log-probability is the log-probability of
    the decision alone, computed from the logits of the top layer's
    output. *)
Theorem forward_one_hot_and_noop (texp : Q -> Q)
    (categorical_log_prob : list Q -> list Q -> Q)
    (normal_log_prob : Q -> Q -> Q -> Q)
    (ss k : nat) (al : Q) (bs hs nl : nat) (dr : Q) (w : init_weights)
    (h c : option (list (list (list Q))))
    (state : list (list Q)) (encoding : option (list (list Q))) (d : draws)
    (net' : PolicyNet) (decision : list (list Q)) (values log_prob : list Q) :
  forward texp categorical_log_prob normal_log_prob
    (set_state (PolicyNet_init ss k al bs hs nl dr w) h c) state encoding d
  = (net', Ok (decision, (values, log_prob))) ->
  Forall (is_one_hot k) decision
  /\ exists h_1 decision_logit,
       match h_list net' with Some l => last l | None => None end = Some h_1
       /\ Linear_forward (FC_decision net') h_1 = Ok decision_logit
       /\ forall r row,
            decision !! r = Some row ->
            row !! (k - 1) = Some 1%Q ->
            exists v lp logits,
              values !! r = Some v /\ (v == 0)%Q
              /\ decision_logit !! r = Some logits
              /\ log_prob !! r = Some lp
              /\ (lp == categorical_log_prob logits row)%Q.
Proof.
  intros Hfwd.
  apply forward_Ok in Hfwd as (h_1 & hl & cl & Hrun & Hnet & Hhead).
  assert (Hk : 2 <= k).
  { apply policy_head_Ok_two_actions in Hhead. subst net'.
    destruct encoding; exact Hhead. }
  assert (HFC : FC_decision net'
                = Linear_init hs k (init_decision_W w) (init_decision_b w))
    by (subst net'; destruct encoding; reflexivity).
  apply policy_head_Ok in Hhead
    as (dl & vm & vs & acc & cols & sv & sl & Hdl & Hdec & _ & Happ & Hsv & Hsl & Hval & Hlp).
  apply append_noop_Ok in Happ as (av & alp & _ & Hav & Halp).
  pose proof Hdl as Hrows. rewrite HFC in Hrows.
  apply Linear_init_forward_rows in Hrows as [_ Hrows].
  assert (Hrow : forall r row, decision !! r = Some row ->
            exists logits, dl !! r = Some logits
                           /\ row = one_hot k (decision_draw d r mod k)).
  { intros r row Hr. rewrite Hdec in Hr.
    apply sample_decision_lookup in Hr as (logits & Hlogits & ->).
    exists logits. split; [exact Hlogits|].
    now rewrite (Hrows _ _ Hlogits). }
  split.
  { apply Forall_lookup. intros r row Hr.
    destruct (Hrow r row Hr) as (logits & _ & ->).
    apply one_hot_is_one_hot. apply Nat.mod_upper_bound. lia. }
  exists h_1, dl. split.
  { subst net'. cbn [set_state h_list]. eapply recurrent_last. exact Hrun. }
  split; [exact Hdl|].
  intros r row Hr Hsel.
  destruct (Hrow r row Hr) as (logits & Hlogits & Erow).
  assert (Elast : row = one_hot k (k - 1)).
  { rewrite Erow in Hsel |- *. rewrite one_hot_lookup in Hsel by lia.
    destruct (Nat.eqb_spec (k - 1) (decision_draw d r mod k)) as [<-|];
      [reflexivity | discriminate]. }
  rewrite Elast in Hr.
  destruct (noop_selected _ _ _ _ _ k r Hav Hsv ltac:(lia) Hr) as (v1 & Hv1 & Ev1).
  destruct (noop_selected _ _ _ _ _ k r Halp Hsl ltac:(lia) Hr) as (v2 & Hv2 & Ev2).
  exists (v1 * act_lim net')%Q, (categorical_log_prob logits row + v2)%Q, logits.
  split.
  { rewrite Hval, list_lookup_fmap, Hv1. reflexivity. }
  split; [rewrite Ev1; ring|].
  split; [exact Hlogits|].
  split.
  { rewrite Hlp, lookup_zip_with, lookup_zip_with, Hlogits. cbn.
    rewrite Hdec in Hr |- *. rewrite Hr. cbn. rewrite Hv2. cbn.
    rewrite Elast. reflexivity. }
  rewrite Ev2. ring.
Qed.

Lemma forward_one_hot_and_noop_witness :
  Forall (is_one_hot 3) [[0%Q; 0%Q; 1%Q]]
  /\ exists h_1 decision_logit,
       match h_list (fst (demo_forward (demo_net 3 2) [[1%Q]] (Some [[5%Q; 7%Q]])
                            (demo_draws 2)))
       with Some l => last l | None => None end = Some h_1
       /\ Linear_forward
            (FC_decision (fst (demo_forward (demo_net 3 2) [[1%Q]] (Some [[5%Q; 7%Q]])
                                 (demo_draws 2)))) h_1 = Ok decision_logit
       /\ forall r row,
            [[0%Q; 0%Q; 1%Q]] !! r = Some row ->
            row !! (3 - 1) = Some 1%Q ->
            exists v lp logits,
              [0%Q] !! r = Some v /\ (v == 0)%Q
              /\ decision_logit !! r = Some logits
              /\ [-2636800 # 25600] !! r = Some lp
              /\ (lp == demo_categorical logits row)%Q.
Proof.
  apply (forward_one_hot_and_noop demo_exp demo_categorical demo_normal
           1 3 2 1 2 2 (85 # 100) demo_weights None None
           [[1%Q]] (Some [[5%Q; 7%Q]]) (demo_draws 2)).
  vm_compute. reflexivity.
Defined.

(** C10. [forward] returns only on a network with at least two action
    dimensions.  With [num_actions = 1] every call raises; when the three
    linear layers accept the hidden output, what is raised is the
    TypeError of [torch.cat] applied to the accumulator the loop, run zero
    times, left at None.  With [num_actions >= 2] the head never raises
    that TypeError. *)
Theorem forward_requires_two_actions (texp : Q -> Q)
    (categorical_log_prob : list Q -> list Q -> Q)
    (normal_log_prob : Q -> Q -> Q -> Q) :
  (forall net state encoding d net' out,
      forward texp categorical_log_prob normal_log_prob net state encoding d
      = (net', Ok out) ->
      2 <= num_actions net)
  /\ (forall net state encoding d,
        num_actions net = 1 ->
        exists e,
          snd (forward texp categorical_log_prob normal_log_prob net state encoding d)
          = Raise e)
  /\ (forall net h_1 d decision_logit values_mean values_logstd,
        num_actions net = 1 ->
        Linear_forward (FC_decision net) h_1 = Ok decision_logit ->
        Linear_forward (FC_values_mean net) h_1 = Ok values_mean ->
        Linear_forward (FC_values_logstd net) h_1 = Ok values_logstd ->
        policy_head texp categorical_log_prob normal_log_prob net h_1 d
        = Raise TypeError)
  /\ (forall net h_1 d,
        2 <= num_actions net ->
        policy_head texp categorical_log_prob normal_log_prob net h_1 d
        <> Raise TypeError).
Proof.
  assert (Hret : forall net state encoding d net' out,
             forward texp categorical_log_prob normal_log_prob net state encoding d
             = (net', Ok out) ->
             2 <= num_actions net).
  { intros net state encoding d net' out Hfwd.
    apply forward_Ok in Hfwd as (h_1 & hl & cl & _ & -> & Hhead).
    apply policy_head_Ok_two_actions in Hhead.
    destruct encoding; exact Hhead. }
  split; [exact Hret|]. split; [|split].
  - intros net state encoding d Hone.
    destruct (forward texp categorical_log_prob normal_log_prob net state encoding d)
      as [net' [out|e]] eqn:Hfwd; cbn [snd]; [|eauto].
    apply Hret in Hfwd. lia.
  - intros net h_1 d dl vm vl Hone H1 H2 H3.
    unfold policy_head. rewrite H1, H2, H3, Hone. reflexivity.
  - intros net h_1 d. apply policy_head_no_TypeError.
Qed.

Lemma forward_requires_two_actions_witness :
  snd (demo_forward (demo_net 1 2) [[1%Q]] (Some [[5%Q; 7%Q]]) (demo_draws 0))
  = Raise TypeError
  /\ policy_head demo_exp demo_categorical demo_normal
       (demo_net 2 2) [[19%Q; 21%Q]] (demo_draws 0) <> Raise TypeError.
Proof.
  destruct (forward_requires_two_actions demo_exp demo_categorical demo_normal)
    as (_ & _ & Hone & Htwo).
  split.
  - exact (Hone (demo_net 1 2) [[19%Q; 21%Q]] (demo_draws 0) _ _ _
             eq_refl eq_refl eq_refl eq_refl).
  - apply Htwo. vm_compute. lia.
Defined.

Lemma step_layers_carry_slot0_witness :
  h_list (fst (demo_forward
                 (fst (demo_forward (demo_net 3 3) [[1%Q]] (Some [[5%Q; 7%Q]])
                         (demo_draws 0)))
                 [[1%Q]] None (demo_draws 1)))
  = Some [[[7%Q; 9%Q]]; [[22%Q; 24%Q]]; [[52%Q; 54%Q]]].
Proof.
  refine (proj1 (step_layers_carry_slot0 demo_exp demo_categorical demo_normal
            (fst (demo_forward (demo_net 3 3) [[1%Q]] (Some [[5%Q; 7%Q]]) (demo_draws 0)))
            [[1%Q]] (demo_draws 1)
            [[6%Q; 8%Q]] [[0%Q; 0%Q]] [[52%Q; 54%Q]]
            [[[19%Q; 21%Q]]; [[45%Q; 47%Q]]] [[[0%Q; 0%Q]]; [[0%Q; 0%Q]]]
            [[[7%Q; 9%Q]]; [[22%Q; 24%Q]]; [[52%Q; 54%Q]]]
            [[[0%Q; 0%Q]]; [[0%Q; 0%Q]]; [[0%Q; 0%Q]]] _ _ _));
    vm_compute; reflexivity.
Defined.

Lemma reward_to_go_recurrence_witness :
  (nth 1 (reward_to_go (1 # 2) [1%Q; 1%Q; 1%Q]) 0
   == nth 1 [1%Q; 1%Q; 1%Q] 0
      + (1 # 2) * nth 2 (reward_to_go (1 # 2) [1%Q; 1%Q; 1%Q]) 0)%Q.
Proof.
  apply (proj2 (proj2 (proj1 reward_to_go_recurrence (1 # 2) [1%Q; 1%Q; 1%Q]))).
  simpl. lia.
Defined.

(** ** Proofs: the Encoder *)

Lemma shape_eqb_refl (s : list nat) : shape_eqb s s = true.
Proof.
  unfold shape_eqb. rewrite Nat.eqb_refl. cbn [andb].
  induction s as [|x s IH]; [reflexivity|].
  cbn. rewrite Nat.eqb_refl. exact IH.
Qed.

(** The encoding of a batched input when [hidden_size] is not 1: one row
    per batch element, [hidden_size] entries, whatever the sequence
    length and with or without an initial state of the right shape. *)
Lemma Encoder_forward_shape (enc : Encoder) (batch seq_len : nat)
    (hx : option (list nat)) :
  1 <= enc_num_layers enc ->
  enc_hidden_size enc <> 1 ->
  (forall s, hx = Some s -> s = [enc_num_layers enc; batch; enc_hidden_size enc]) ->
  Encoder_forward enc [batch; seq_len; input_size enc] hx hx
  = Ok [batch; enc_hidden_size enc].
Proof.
  intros Hl Hh Hhx. unfold Encoder_forward.
  assert (HL : match hx, hx with
               | Some h, Some c =>
                   LSTM_h_n enc [batch; seq_len; input_size enc] (Some (h, c))
               | _, _ => LSTM_h_n enc [batch; seq_len; input_size enc] None
               end = Ok [enc_num_layers enc; batch; enc_hidden_size enc]).
  { destruct hx as [s|]; cbn [LSTM_h_n]; rewrite Nat.eqb_refl; [|reflexivity].
    rewrite (Hhx s eq_refl), shape_eqb_refl. reflexivity. }
  rewrite HL. cbn [rbind select_last_layer].
  destruct (Nat.eqb_spec (enc_num_layers enc) 0); [lia|].
  cbn [rbind]. unfold squeeze. cbn [lookup list_lookup].
  destruct (Nat.eqb_spec (enc_hidden_size enc) 1); [contradiction | reflexivity].
Qed.

(** With [hidden_size = 1] the squeeze drops the feature dimension. *)
Lemma Encoder_forward_shape_hidden_one (enc : Encoder) (batch seq_len : nat) :
  1 <= enc_num_layers enc ->
  enc_hidden_size enc = 1 ->
  Encoder_forward enc [batch; seq_len; input_size enc] None None = Ok [batch].
Proof.
  intros Hl Hh. unfold Encoder_forward. cbn [LSTM_h_n]. rewrite Nat.eqb_refl.
  cbn [rbind select_last_layer].
  destruct (Nat.eqb_spec (enc_num_layers enc) 0); [lia|].
  cbn [rbind]. unfold squeeze. cbn [lookup list_lookup]. rewrite Hh. reflexivity.
Qed.

(** C9, on the code.  [Encoder(input_size=4, hidden_size=1)] applied to an
    input of shape (2, 3, 4) returns a tensor of shape (2), not (2, 1);
    with [hidden_size=5] the same input gives (2, 5). *)
Theorem Encoder_forward_hidden_one_loses_dimension :
  Encoder_forward (mkEncoder 4 1 1 2 (85 # 100)) [2; 3; 4] None None = Ok [2]
  /\ Encoder_forward (mkEncoder 4 1 1 2 (85 # 100)) [2; 3; 4] None None <> Ok [2; 1]
  /\ Encoder_forward (mkEncoder 4 1 5 2 (85 # 100)) [2; 3; 4] None None = Ok [2; 5].
Proof. repeat split; [discriminate]. Qed.

(** * Further properties of the code *)

(** ** Reward-to-go *)

Section RewardToGoMore.

Local Open Scope Q_scope.

Variable GAMMA : Q.

Lemma rtg_rec_drop (rewards : list Q) (t : nat) :
  drop t (rtg_rec GAMMA rewards) = rtg_rec GAMMA (drop t rewards).
Proof.
  revert rewards. induction t as [|t IH]; intros rewards.
  - now rewrite !drop_0.
  - destruct rewards as [|r rs]; [reflexivity|].
    rewrite rtg_rec_cons. cbn [drop]. apply IH.
Qed.

Lemma imap_fold_shift (f : nat -> Q -> Q) (l : list Q) :
  (forall j x, f (S j) x == GAMMA * f j x) ->
  fold_right Qplus 0 (imap (fun j => f (S j)) l)
  == GAMMA * fold_right Qplus 0 (imap f l).
Proof.
  revert f. induction l as [|x l IH]; intros f Hf; cbn [imap fold_right].
  - ring.
  - rewrite Hf. unfold compose.
    rewrite (IH (fun j => f (S j))) by (intros j y; apply Hf).
    ring.
Qed.

Lemma discounted_sum_cons (r : Q) (rs : list Q) :
  discounted_sum GAMMA (r :: rs) == r + GAMMA * discounted_sum GAMMA rs.
Proof.
  unfold discounted_sum. cbn [imap fold_right qpow]. unfold compose.
  rewrite (imap_fold_shift (fun j x => qpow GAMMA j * x)).
  - ring.
  - intros j x. cbn [qpow]. ring.
Qed.

Lemma rtg_rec_head (rewards : list Q) :
  hd 0 (rtg_rec GAMMA rewards) == discounted_sum GAMMA rewards.
Proof.
  induction rewards as [|r rs IH]; [reflexivity|].
  rewrite rtg_rec_cons, discounted_sum_cons. cbn [hd].
  destruct rs as [|r' rs].
  - cbn. ring.
  - cbn [length Nat.ltb Nat.leb]. rewrite IH. reflexivity.
Qed.

End RewardToGoMore.

(** X1. The weight of step [t] ignores what came before: the weights from
    index [t] on are the weights computed for the rewards from [t] on. *)
Theorem reward_to_go_suffix (GAMMA : Q) (rewards : list Q) (t : nat) :
  drop t (reward_to_go GAMMA rewards) = reward_to_go GAMMA (drop t rewards).
Proof. rewrite !reward_to_go_rec. apply rtg_rec_drop. Qed.

(** X2. The weight of step [t] is the discounted sum of the rewards from
    [t] on: [rewards[t] + GAMMA * rewards[t+1] + GAMMA^2 * rewards[t+2]
    + ...]. *)
Theorem reward_to_go_discounted_sum (GAMMA : Q) (rewards : list Q) (t : nat) :
  t < length rewards ->
  (nth t (reward_to_go GAMMA rewards) 0
   == discounted_sum GAMMA (drop t rewards))%Q.
Proof.
  intros Ht.
  assert (E : nth t (reward_to_go GAMMA rewards) 0%Q
              = hd 0%Q (drop t (reward_to_go GAMMA rewards))).
  { generalize (reward_to_go GAMMA rewards). clear. intros l. revert l.
    induction t as [|t IH]; intros [|x l]; try reflexivity. cbn. apply IH. }
  rewrite E, reward_to_go_rec, rtg_rec_drop. apply rtg_rec_head.
Qed.

Lemma reward_to_go_discounted_sum_witness :
  (nth 1 (reward_to_go (1 # 2) [4%Q; 2%Q; 8%Q]) 0
   == discounted_sum (1 # 2) (drop 1 [4%Q; 2%Q; 8%Q]))%Q.
Proof.
  apply (reward_to_go_discounted_sum (1 # 2) [4%Q; 2%Q; 8%Q] 1).
  simpl. lia.
Defined.

(** ** The loss: when it is computed *)

Section LossMore.

Local Open Scope Q_scope.





Lemma loss_loop_ext (lps ws ws' : list (list Q)) idx acc :
  (forall i, i ∈ idx -> ws !! i = ws' !! i) ->
  loss_loop lps ws idx acc = loss_loop lps ws' idx acc.
Proof.
  revert acc. induction idx as [|j idx IH]; intros acc H; [reflexivity|].
  cbn [loss_loop]. unfold episode_term, subscript.
  rewrite (H j ltac:(left)).
  destruct (lps !! j) as [lp|]; cbn [rbind]; [|reflexivity].
  destruct (ws' !! j) as [w|]; cbn [rbind]; [|reflexivity].
  destruct (tmul lp w); cbn [rbind]; [|reflexivity].
  apply IH. intros i Hi. apply H. now right.
Qed.

End LossMore.


(** X4. Reward sequences beyond the number of log-probability sequences
    are never read: the batch size is that of [batch_log_prob]. *)
Theorem optimize_model_loss_ignores_surplus_rewards (GAMMA : Q)
    (batch_log_prob batch_rewards surplus : list (list Q)) :
  length batch_log_prob <= length batch_rewards ->
  optimize_model_loss GAMMA batch_log_prob (batch_rewards ++ surplus)
  = optimize_model_loss GAMMA batch_log_prob batch_rewards.
Proof.
  intros Hle. unfold optimize_model_loss.
  rewrite (loss_loop_ext batch_log_prob
             (map (reward_to_go GAMMA) (batch_rewards ++ surplus))
             (map (reward_to_go GAMMA) batch_rewards)); [reflexivity|].
  intros i Hi. rewrite list_elem_of_In, in_seq in Hi.
  rewrite map_app. apply lookup_app_l. rewrite length_map. lia.
Qed.

Lemma optimize_model_loss_ignores_surplus_rewards_witness :
  optimize_model_loss (1 # 2) [[-1%Q; -2%Q]] ([[1%Q; 1%Q]] ++ [[7%Q]; []])
  = optimize_model_loss (1 # 2) [[-1%Q; -2%Q]] [[1%Q; 1%Q]].
Proof.
  apply (optimize_model_loss_ignores_surplus_rewards (1 # 2)
           [[-1%Q; -2%Q]] [[1%Q; 1%Q]] [[7%Q]; []]).
  simpl. lia.
Defined.

(** ** The update: clipping and failures *)

Section UpdateMore.

Local Open Scope Q_scope.

Lemma clamp1_clipped (x : Q) : clipped (clamp1 x).
Proof.
  unfold clamp1, clipped.
  destruct (Qlt_le_dec x (-1)) as [H1|H1]; [split; lra|].
  destruct (Qlt_le_dec 1 x) as [H2|H2]; split; lra.
Qed.

Lemma clamp_grads_data (ps : list param) :
  map p_data (fst (clamp_grads ps)) = map p_data ps.
Proof.
  induction ps as [|p ps IH]; [reflexivity|].
  cbn [clamp_grads]. destruct (p_grad p); [|reflexivity].
  destruct (clamp_grads ps) as [rest r]. cbn [fst map p_data] in *.
  now rewrite IH.
Qed.

Lemma clamp_grads_Ok (ps ps' : list param) :
  clamp_grads ps = (ps', Ok tt) ->
  Forall (fun p => exists g, p_grad p = Some g /\ Forall clipped g) ps'.
Proof.
  revert ps'. induction ps as [|p ps IH]; intros ps' H; cbn [clamp_grads] in H.
  - injection H as <-. constructor.
  - destruct (p_grad p) as [g|]; [|discriminate].
    destruct (clamp_grads ps) as [rest r]. injection H as <- ->.
    constructor; [|now apply IH].
    eexists. split; [reflexivity|].
    apply Forall_fmap, Forall_forall. intros x _. apply clamp1_clipped.
Qed.

Lemma clamp_grads_missing (ps : list param) (i : nat) (p : param) :
  ps !! i = Some p -> p_grad p = None ->
  snd (clamp_grads ps) = Raise AttributeError.
Proof.
  revert i. induction ps as [|q ps IH]; intros i Hi Hp; [discriminate|].
  cbn [clamp_grads]. destruct i as [|i].
  - injection Hi as ->. rewrite Hp. reflexivity.
  - destruct (p_grad q); [|reflexivity].
    specialize (IH i Hi Hp). destruct (clamp_grads ps) as [rest r]. exact IH.
Qed.

Lemma backward_data b dloss (ps ps2 : list param) :
  backward b dloss ps = Ok ps2 -> map p_data ps2 = map p_data ps.
Proof.
  unfold backward. destruct b; [|discriminate]. intros [= <-].
  apply list_eq. intros i. rewrite !list_lookup_fmap, list_lookup_imap.
  destruct (ps !! i); reflexivity.
Qed.

End UpdateMore.

(** X5. When [optimize_model] completes, the parameters it leaves are
    those the optimizer's step computes from parameters whose entries are
    the ones it was called with and whose gradients all exist with every
    entry in [-1, 1]. *)
Theorem optimize_model_steps_on_clipped_gradients (params params' : list param)
    (dloss : nat -> option (list Q)) (batch_log_prob : list tensor)
    (batch_rewards : list (list Q)) (opt : optimizer) (GAMMA : Q) :
  optimize_model params dloss batch_log_prob batch_rewards opt GAMMA
  = (params', Ok tt) ->
  exists clipped_params,
    params' = step opt clipped_params
    /\ map p_data clipped_params = map p_data params
    /\ Forall (fun p => exists g, p_grad p = Some g /\ Forall clipped g)
              clipped_params.
Proof.
  unfold optimize_model.
  destruct (optimize_model_loss GAMMA (map data batch_log_prob) batch_rewards)
    as [l|e]; [|discriminate].
  destruct (backward _ dloss _) as [params2|e] eqn:Hback; [|discriminate].
  destruct (clamp_grads params2) as [params3 [[]|e]] eqn:Hclamp; [|discriminate].
  intros [= <-]. exists params3. split; [reflexivity|]. split.
  - pose proof (clamp_grads_data params2) as Hd. rewrite Hclamp in Hd.
    cbn [fst] in Hd. rewrite Hd, (backward_data _ _ _ _ Hback).
    apply zero_grad_keeps_data.
  - exact (clamp_grads_Ok _ _ Hclamp).
Qed.

Lemma optimize_model_steps_on_clipped_gradients_witness :
  exists clipped_params,
    [mkParam [(1 # 2) - 1 * 1; 3 - 1 * (-1 # 4)]%Q (Some [1%Q; -1 # 4])]
    = step (sgd 1) clipped_params
    /\ map p_data clipped_params = map p_data [mkParam [1 # 2; 3%Q] None]
    /\ Forall (fun p => exists g, p_grad p = Some g /\ Forall clipped g)
              clipped_params.
Proof.
  apply (optimize_model_steps_on_clipped_gradients
           [mkParam [1 # 2; 3%Q] None] _ (fun _ => Some [5%Q; -1 # 4])
           [mkTensor [-1%Q; -2%Q] true] [[1%Q; 1%Q]] (sgd 1) (1 # 2)).
  reflexivity.
Defined.

(** X6. A call of [optimize_model] that raises, at whatever line, leaves
    the entries of the parameters as they were. *)
Theorem optimize_model_raise_keeps_parameters (params : list param)
    (dloss : nat -> option (list Q)) (batch_log_prob : list tensor)
    (batch_rewards : list (list Q)) (opt : optimizer) (GAMMA : Q) (e : exn) :
  snd (optimize_model params dloss batch_log_prob batch_rewards opt GAMMA) = Raise e ->
  map p_data (fst (optimize_model params dloss batch_log_prob batch_rewards opt GAMMA))
  = map p_data params.
Proof.
  unfold optimize_model.
  destruct (optimize_model_loss GAMMA (map data batch_log_prob) batch_rewards)
    as [l|e0]; [|reflexivity].
  destruct (backward _ dloss _) as [params2|e1] eqn:Hback.
  2:{ intros _. cbn [fst]. apply zero_grad_keeps_data. }
  destruct (clamp_grads params2) as [params3 [[]|e2]] eqn:Hclamp; [discriminate|].
  intros _. cbn [fst].
  pose proof (clamp_grads_data params2) as Hd. rewrite Hclamp in Hd.
  cbn [fst] in Hd. rewrite Hd, (backward_data _ _ _ _ Hback).
  apply zero_grad_keeps_data.
Qed.

Lemma optimize_model_raise_keeps_parameters_witness :
  map p_data (fst (optimize_model [mkParam [1 # 2] None; mkParam [3%Q] None]
                     (fun i => if (i =? 0)%nat then Some [9%Q] else None)
                     [mkTensor [-1%Q; -2%Q] true] [[1%Q; 1%Q]] (sgd 1) (1 # 2)))
  = map p_data [mkParam [1 # 2] None; mkParam [3%Q] None].
Proof.
  apply (optimize_model_raise_keeps_parameters _ _ _ _ _ _ AttributeError).
  reflexivity.
Defined.

(** X7. When the loss is computed from an attached batch but some
    parameter holds no gradient after the backward pass ([zero_grad] left
    None and the loss does not depend on it), the clipping loop raises an
    AttributeError and [optimizer.step()] is not reached. *)
Theorem optimize_model_missing_gradient (params : list param)
    (dloss : nat -> option (list Q)) (batch_log_prob : list tensor)
    (batch_rewards : list (list Q)) (opt : optimizer) (GAMMA : Q)
    (i : nat) (p : param) :
  is_ok (optimize_model_loss GAMMA (map data batch_log_prob) batch_rewards) = true ->
  existsb requires_grad batch_log_prob = true ->
  params !! i = Some p ->
  zero_grad opt (p_grad p) = None ->
  dloss i = None ->
  snd (optimize_model params dloss batch_log_prob batch_rewards opt GAMMA)
  = Raise AttributeError.
Proof.
  intros Hloss Hgrad Hp Hzero Hd. unfold optimize_model.
  destruct (optimize_model_loss GAMMA (map data batch_log_prob) batch_rewards)
    as [l|e]; [|discriminate].
  rewrite Hgrad. cbn [backward].
  match goal with |- context [clamp_grads ?ps] =>
    assert (Hmiss : snd (clamp_grads ps) = Raise AttributeError);
    [|destruct (clamp_grads ps) as [params3 r]; cbn [snd] in Hmiss; subst r;
      reflexivity]
  end.
  apply (clamp_grads_missing _ i (mkParam (p_data p) None)); [|reflexivity].
  rewrite list_lookup_imap, list_lookup_fmap, Hp. cbn.
  now rewrite Hzero, Hd.
Qed.

Lemma optimize_model_missing_gradient_witness :
  snd (optimize_model [mkParam [1 # 2] None; mkParam [3%Q] None]
         (fun i => if (i =? 0)%nat then Some [9%Q] else None)
         [mkTensor [-1%Q; -2%Q] true] [[1%Q; 1%Q]] (sgd 1) (1 # 2))
  = Raise AttributeError.
Proof.
  apply (optimize_model_missing_gradient _ _ _ _ _ _ 1 (mkParam [3%Q] None));
    reflexivity.
Defined.

(** ** PolicyNet: the life of the stored state *)

Section StateMore.

Variable texp : Q -> Q.
Variable categorical_log_prob : list Q -> list Q -> Q.
Variable normal_log_prob : Q -> Q -> Q -> Q.

Let fwd := forward texp categorical_log_prob normal_log_prob.

Lemma recurrent_Ok_stored (net : PolicyNet) (state : list (list Q)) out :
  recurrent net state = Ok out ->
  exists h0 c0, stored (h_list net) 0 = Ok h0 /\ stored (c_list net) 0 = Ok c0.
Proof.
  unfold recurrent, first_layer. intros H.
  apply rbind_Ok in H as (hc & H & _).
  apply rbind_Ok in H as (cell & _ & H).
  apply rbind_Ok in H as (h0 & Hh & H).
  apply rbind_Ok in H as (c0 & Hc & _).
  eauto.
Qed.

Lemma forward_net_cases (net : PolicyNet) state encoding d :
  let net1 := match encoding with Some e => reset net e | None => net end in
  (exists e, recurrent net1 state = Raise e /\ fst (fwd net state encoding d) = net1)
  \/ (exists h_1 hl cl,
        recurrent net1 state = Ok (h_1, (hl, cl))
        /\ fst (fwd net state encoding d) = set_state net1 (Some hl) (Some cl)).
Proof.
  intros net1. unfold fwd, forward. fold net1.
  destruct (recurrent net1 state) as [[h_1 [hl cl]]|e].
  - right. exists h_1, hl, cl. split; reflexivity.
  - left. exists e. split; reflexivity.
Qed.

End StateMore.

(** X8. A step call on a built network whose [h_list] is None, as it is
    from construction until the first reset, raises a TypeError before
    any cell runs and leaves the network as it was, whatever [c_list]
    holds and whatever the state and the number of layers. *)
Theorem forward_before_reset_raises (texp : Q -> Q)
    (categorical_log_prob : list Q -> list Q -> Q)
    (normal_log_prob : Q -> Q -> Q -> Q)
    (ss k : nat) (al : Q) (bs hs nl : nat) (dr : Q) (w : init_weights)
    (h c : option (list (list (list Q))))
    (state : list (list Q)) (d : draws) :
  h = None ->
  forward texp categorical_log_prob normal_log_prob
    (set_state (PolicyNet_init ss k al bs hs nl dr w) h c) state None d
  = (set_state (PolicyNet_init ss k al bs hs nl dr w) h c, Raise TypeError).
Proof.
  intros ->. unfold forward.
  assert (Hrun : recurrent (set_state (PolicyNet_init ss k al bs hs nl dr w) None c)
                   state = Raise TypeError).
  { unfold recurrent, first_layer.
    cbn [set_state PolicyNet_init cell_list h_list subscript lookup list_lookup].
    reflexivity. }
  now rewrite Hrun.
Qed.

Lemma forward_before_reset_raises_witness :
  demo_forward (demo_net 3 2) [[1%Q]] None (demo_draws 0)
  = (demo_net 3 2, Raise TypeError).
Proof.
  apply (forward_before_reset_raises demo_exp demo_categorical demo_normal
           1 3 2 1 2 2 (85 # 100) demo_weights None None [[1%Q]] (demo_draws 0)).
  reflexivity.
Defined.

(** X9. [forward] assigns [h_list] and [c_list] and nothing else: the
    sizes, the cells and the three linear layers of the network it leaves
    are those of the network it was called on, whether it returns or
    raises. *)
Theorem forward_keeps_configuration (texp : Q -> Q)
    (categorical_log_prob : list Q -> list Q -> Q)
    (normal_log_prob : Q -> Q -> Q -> Q)
    (net : PolicyNet) (state : list (list Q)) (encoding : option (list (list Q)))
    (d : draws) :
  exists h c,
    fst (forward texp categorical_log_prob normal_log_prob net state encoding d)
    = set_state net h c.
Proof.
  destruct (forward_net_cases texp categorical_log_prob normal_log_prob
              net state encoding d) as [(e & _ & ->)|(h_1 & hl & cl & _ & ->)].
  - destruct encoding as [enc|].
    + eexists _, _. reflexivity.
    + exists (h_list net), (c_list net). symmetry. apply set_state_same.
  - destruct encoding as [enc|]; eexists _, _; reflexivity.
Qed.

(** X10. Whenever [forward] returns, the two stored lists hold one entry
    per layer, [max(1, num_layers)] of them, so that a step call that
    follows finds its carry in slot 0. *)
Theorem forward_stores_one_entry_per_layer (texp : Q -> Q)
    (categorical_log_prob : list Q -> list Q -> Q)
    (normal_log_prob : Q -> Q -> Q -> Q)
    (net net' : PolicyNet) (state : list (list Q))
    (encoding : option (list (list Q))) (d : draws)
    (out : list (list Q) * (list Q * list Q)) :
  forward texp categorical_log_prob normal_log_prob net state encoding d
  = (net', Ok out) ->
  exists H' C' h0 c0,
    h_list net' = Some H' /\ c_list net' = Some C'
    /\ length H' = Nat.max 1 (num_layers net)
    /\ length C' = Nat.max 1 (num_layers net)
    /\ stored (h_list net') 0 = Ok h0 /\ stored (c_list net') 0 = Ok c0.
Proof.
  intros Hfwd.
  apply forward_Ok in Hfwd as (h_1 & hl & cl & Hrun & -> & _).
  destruct (recurrent_Ok_stored _ _ _ Hrun) as (h0 & c0 & Hh & Hc).
  destruct (recurrent_spec _ _ _ _ _ _ _ Hh Hc Hrun) as (L1 & L2 & _ & L4 & _).
  destruct L4 as (cell & h & c & _ & _ & Hh0 & Hc0).
  exists hl, cl, h, c. cbn [set_state h_list c_list stored].
  assert (Hn : num_layers match encoding with Some e => reset net e | None => net end
               = num_layers net) by (destruct encoding; reflexivity).
  rewrite Hn in L1, L2.
  repeat split; try lia.
  - unfold subscript. now rewrite Hh0.
  - unfold subscript. now rewrite Hc0.
Qed.

Lemma forward_stores_one_entry_per_layer_witness :
  exists H' C' h0 c0,
    h_list (fst (demo_forward (demo_net 3 3) [[1%Q]] (Some [[5%Q; 7%Q]]) (demo_draws 0)))
    = Some H'
    /\ c_list (fst (demo_forward (demo_net 3 3) [[1%Q]] (Some [[5%Q; 7%Q]]) (demo_draws 0)))
       = Some C'
    /\ length H' = Nat.max 1 (num_layers (demo_net 3 3))
    /\ length C' = Nat.max 1 (num_layers (demo_net 3 3))
    /\ stored (h_list (fst (demo_forward (demo_net 3 3) [[1%Q]] (Some [[5%Q; 7%Q]])
                              (demo_draws 0)))) 0 = Ok h0
    /\ stored (c_list (fst (demo_forward (demo_net 3 3) [[1%Q]] (Some [[5%Q; 7%Q]])
                              (demo_draws 0)))) 0 = Ok c0.
Proof.
  apply (forward_stores_one_entry_per_layer demo_exp demo_categorical demo_normal
           (demo_net 3 3) _ [[1%Q]] (Some [[5%Q; 7%Q]]) (demo_draws 0)
           (snd (match demo_forward (demo_net 3 3) [[1%Q]] (Some [[5%Q; 7%Q]]) (demo_draws 0)
                 with (_, Ok out) => (0, out) | (_, Raise _) => (0, ([], ([], []))) end))).
  vm_compute. reflexivity.
Defined.

(** X11. The stored state a call leaves does not depend on what the call
    draws: the sampled decision and values are returned, not fed back
    into the recurrent state. *)
Theorem forward_state_independent_of_draws (texp : Q -> Q)
    (categorical_log_prob : list Q -> list Q -> Q)
    (normal_log_prob : Q -> Q -> Q -> Q)
    (net : PolicyNet) (state : list (list Q)) (encoding : option (list (list Q)))
    (d1 d2 : draws) :
  fst (forward texp categorical_log_prob normal_log_prob net state encoding d1)
  = fst (forward texp categorical_log_prob normal_log_prob net state encoding d2).
Proof.
  unfold forward. destruct (recurrent _ state) as [[h_1 [hl cl]]|e]; reflexivity.
Qed.

(** ** PolicyNet: what the head selects *)

Section HeadContents.

Local Open Scope Q_scope.

Variable texp : Q -> Q.
Variable categorical_log_prob : list Q -> list Q -> Q.
Variable normal_log_prob : Q -> Q -> Q -> Q.

Lemma zip_with_map_same {A B C D} (f : B -> C -> D) (g : A -> B) (h : A -> C)
    (l : list A) :
  zip_with f (map g l) (map h l) = map (fun x => f (g x) (h x)) l.
Proof. induction l as [|x l IH]; [reflexivity|]. cbn. now rewrite IH. Qed.

Lemma map_via_seq {A B} (g : A -> B) (l : list A) (dflt : A) :
  map g l = map (fun j => g (nth j l dflt)) (seq 0 (length l)).
Proof.
  induction l as [|x l IH]; [reflexivity|].
  cbn [length seq map nth]. f_equal.
  rewrite <- seq_shift, map_map. exact IH.
Qed.

Lemma imap_index_seq {A B} (f : nat -> B) (l : list A) :
  imap (fun j _ => f j) l = map f (seq 0 (length l)).
Proof.
  revert f. induction l as [|x l IH]; intros f; [reflexivity|].
  cbn [imap length seq map]. f_equal.
  rewrite <- seq_shift, map_map. apply (IH (fun j => f (S j))).
Qed.

Lemma column_eq (m : list (list Q)) (i r c : nat) :
  has_shape r c m -> (i < c)%nat ->
  column m i = Ok (map (fun r0 => entry m r0 i) (seq 0 r)).
Proof.
  intros [<- Hrows] Hi. unfold entry.
  rewrite <- (map_via_seq (fun row => nth i row 0) m []).
  induction Hrows as [|row m Hrow _ IH]; [reflexivity|].
  cbn [column map]. destruct (lookup_lt_is_Some_2 row i ltac:(lia)) as [x Hx].
  rewrite (subscript_Some _ _ _ Hx), IH. cbn [rbind].
  now rewrite (nth_lookup_Some _ _ _ _ Hx).
Qed.

Lemma last_column_unsqueeze (v : list Q) : last_column (unsqueeze v) = Ok v.
Proof.
  induction v as [|x v IH]; [reflexivity|].
  change (unsqueeze (x :: v)) with ([x] :: unsqueeze v).
  cbn [last_column last rbind]. rewrite IH. reflexivity.
Qed.

Lemma last_column_snoc (A : list (list Q)) (v : list Q) :
  length A = length v ->
  last_column (zip_with app A (unsqueeze v)) = Ok v.
Proof.
  revert v. induction A as [|row A IH]; intros [|x v] Hlen; try discriminate;
    [reflexivity|].
  change (unsqueeze (x :: v)) with ([x] :: unsqueeze v).
  cbn [zip_with last_column].
  rewrite last_snoc. cbn [rbind].
  rewrite IH by (simpl in Hlen; lia). reflexivity.
Qed.

Lemma drawn_values_S d rows s :
  zip_with app (drawn_values d rows s)
    (unsqueeze (map (fun r0 => value_draw d s r0) (seq 0 rows)))
  = drawn_values d rows (S s).
Proof.
  unfold drawn_values, unsqueeze. rewrite map_map, zip_with_map_same.
  apply map_ext. intros r0. rewrite seq_S, map_app. reflexivity.
Qed.

Lemma drawn_log_prob_S d vm vs rows s :
  zip_with app (drawn_log_prob normal_log_prob d vm vs rows s)
    (unsqueeze (map (fun r0 => normal_log_prob (entry vm r0 s) (entry vs r0 s)
                                 (value_draw d s r0)) (seq 0 rows)))
  = drawn_log_prob normal_log_prob d vm vs rows (S s).
Proof.
  unfold drawn_log_prob, unsqueeze. rewrite map_map, zip_with_map_same.
  apply map_ext. intros r0. rewrite seq_S, map_app. reflexivity.
Qed.

Lemma Normal_log_prob_maps d vm vs rows s :
  Normal_log_prob normal_log_prob
    (map (fun r0 => entry vm r0 s) (seq 0 rows))
    (map (fun r0 => entry vs r0 s) (seq 0 rows))
    (map (fun r0 => value_draw d s r0) (seq 0 rows))
  = map (fun r0 => normal_log_prob (entry vm r0 s) (entry vs r0 s)
                     (value_draw d s r0)) (seq 0 rows).
Proof.
  unfold Normal_log_prob. rewrite zip_with_map_same, zip_with_map_same.
  reflexivity.
Qed.

(** One iteration of the loop, from what the iterations before it left. *)
Lemma values_body_accumulates d (vm vs : list (list Q)) (r c s : nat) :
  has_shape r c vm -> has_shape r c vs -> (s < c)%nat ->
  values_body normal_log_prob d vm vs (accumulated normal_log_prob d vm vs r s) s
  = Ok (accumulated normal_log_prob d vm vs r (S s)).
Proof.
  intros Hvm Hvs Hs. unfold values_body.
  rewrite (column_eq vm s r c Hvm Hs), (column_eq vs s r c Hvs Hs).
  cbn [rbind].
  rewrite (imap_index_seq (fun r0 => value_draw d s r0)), length_map, length_seq.
  destruct s as [|s]; cbn [accumulated].
  - rewrite last_column_unsqueeze. cbn [rbind].
    rewrite Normal_log_prob_maps.
    unfold drawn_values, drawn_log_prob, unsqueeze. rewrite !map_map. reflexivity.
  - unfold cat1 at 1.
    assert (Hl1 : length (drawn_values d r (S s)) = r)
      by (unfold drawn_values; now rewrite length_map, length_seq).
    assert (Hl2 : length (drawn_log_prob normal_log_prob d vm vs r (S s)) = r)
      by (unfold drawn_log_prob; now rewrite length_map, length_seq).
    unfold unsqueeze at 1. rewrite Hl1, !length_map, length_seq, Nat.eqb_refl.
    cbn [rbind].
    change (map (fun x => [x]) ?v) with (unsqueeze v).
    rewrite last_column_snoc by (rewrite Hl1, length_map, length_seq; reflexivity).
    cbn [rbind]. rewrite Normal_log_prob_maps.
    unfold cat1. unfold unsqueeze at 1.
    rewrite Hl2, !length_map, length_seq, Nat.eqb_refl. cbn [rbind].
    change (map (fun x => [x]) ?v) with (unsqueeze v).
    rewrite drawn_values_S, drawn_log_prob_S. reflexivity.
Qed.

Lemma values_loop_accumulates d (vm vs : list (list Q)) (r c : nat) :
  has_shape r c vm -> has_shape r c vs ->
  forall m s, (s + m <= c)%nat ->
  values_loop normal_log_prob d vm vs (seq s m)
    (accumulated normal_log_prob d vm vs r s)
  = Ok (accumulated normal_log_prob d vm vs r (s + m)).
Proof.
  intros Hvm Hvs m. induction m as [|m IH]; intros s Hle.
  - now rewrite Nat.add_0_r.
  - cbn [seq values_loop].
    rewrite (values_body_accumulates d vm vs r c s Hvm Hvs ltac:(lia)).
    cbn [rbind]. rewrite IH by lia. f_equal. f_equal. lia.
Qed.

Lemma entry_map_map (f : Q -> Q) (m : list (list Q)) (r c r0 i : nat) :
  has_shape r c m -> (r0 < r)%nat -> (i < c)%nat ->
  entry (map (map f) m) r0 i = f (entry m r0 i).
Proof.
  intros [Hr Hrows] Hr0 Hi. unfold entry.
  destruct (lookup_lt_is_Some_2 m r0 ltac:(lia)) as [row Hrow].
  assert (Hlen : length row = c) by exact (proj1 (Forall_lookup _ _) Hrows r0 row Hrow).
  rewrite (nth_lookup_Some _ _ _ _ Hrow).
  assert (Hrow' : map (map f) m !! r0 = Some (map f row))
    by (rewrite list_lookup_fmap, Hrow; reflexivity).
  rewrite (nth_lookup_Some _ _ _ _ Hrow').
  destruct (lookup_lt_is_Some_2 row i ltac:(lia)) as [x Hx].
  rewrite (nth_lookup_Some _ _ _ _ Hx).
  assert (Hx' : map f row !! i = Some (f x))
    by (rewrite list_lookup_fmap, Hx; reflexivity).
  now rewrite (nth_lookup_Some _ _ _ _ Hx').
Qed.

End HeadContents.

Section HeadSelection.

Local Open Scope Q_scope.

Variable texp : Q -> Q.
Variable categorical_log_prob : list Q -> list Q -> Q.
Variable normal_log_prob : Q -> Q -> Q -> Q.

Lemma policy_head_inv (net : PolicyNet) (h_1 : list (list Q)) (d : draws)
    decision values log_prob :
  policy_head texp categorical_log_prob normal_log_prob net h_1 d
  = Ok (decision, (values, log_prob)) ->
  exists decision_logit values_mean values_logstd acc cols sv sl,
    Linear_forward (FC_decision net) h_1 = Ok decision_logit
    /\ Linear_forward (FC_values_mean net) h_1 = Ok values_mean
    /\ Linear_forward (FC_values_logstd net) h_1 = Ok values_logstd
    /\ decision = sample_decision d decision_logit
    /\ values_loop normal_log_prob d values_mean (map (map texp) values_logstd)
         (seq 0 (num_actions net - 1)) None = Ok acc
    /\ append_noop net acc = Ok cols
    /\ mmul (fst cols) decision = Ok sv
    /\ mmul (snd cols) decision = Ok sl
    /\ values = map (fun x => x * act_lim net) (sum_dim1 sv)
    /\ log_prob = zip_with Qplus
                    (zip_with categorical_log_prob decision_logit decision)
                    (sum_dim1 sl).
Proof.
  unfold policy_head. intros H.
  apply rbind_Ok in H as (decision_logit & Hdl & H).
  apply rbind_Ok in H as (values_mean & Hvm & H).
  apply rbind_Ok in H as (values_logstd & Hvl & H).
  apply rbind_Ok in H as (acc & Hacc & H).
  apply rbind_Ok in H as (cols & Hcols & H).
  apply rbind_Ok in H as (sv & Hsv & H).
  apply rbind_Ok in H as (sl & Hsl & H).
  injection H as <- <- <-.
  exists decision_logit, values_mean, values_logstd, acc, cols, sv, sl.
  repeat split; assumption.
Qed.

(** The masked sum of a row of accumulated columns followed by the no-op
    0 is the accumulated entry of the selected dimension. *)
Lemma selected_entry (F : nat -> nat -> Q) (rows s bs : nat)
    (m sel decision : list (list Q)) (r0 j : nat) :
  cat1 (map (fun r => map (fun i => F r i) (seq 0 s)) (seq 0 rows)) (zeros2 bs 1)
  = Ok m ->
  mmul m decision = Ok sel ->
  decision !! r0 = Some (one_hot (S s) j) ->
  (j < s)%nat ->
  exists v, sum_dim1 sel !! r0 = Some v /\ v == F r0 j.
Proof.
  intros Hcat Hmul Hrow Hj.
  apply cat1_Ok in Hcat as [Hlen0 ->].
  apply mmul_Ok in Hmul as (Hlen & _ & ->).
  assert (Hr : (r0 < length decision)%nat) by (eapply lookup_lt_Some; exact Hrow).
  rewrite length_zip_with in Hlen.
  rewrite length_map, length_seq in Hlen0, Hlen.
  unfold zeros2 in Hlen0, Hlen. rewrite repeat_length in Hlen0, Hlen.
  assert (Hm : zip_with app (map (fun r => map (fun i => F r i) (seq 0 s)) (seq 0 rows))
                 (zeros2 bs 1) !! r0
               = Some (map (fun i => F r0 i) (seq 0 s) ++ [0])).
  { rewrite lookup_zip_with, list_lookup_fmap, lookup_seq_lt by lia. cbn.
    unfold zeros2. rewrite lookup_repeat by lia. reflexivity. }
  exists (tsum (zip_with Qmult (map (fun i => F r0 i) (seq 0 s) ++ [0])
                  (one_hot (S s) j))). split.
  - unfold sum_dim1. rewrite list_lookup_fmap, lookup_zip_with, Hm. cbn.
    rewrite Hrow. reflexivity.
  - assert (Hlen' : length (map (fun i => F r0 i) (seq 0 s) ++ [0]) = S s)
      by (rewrite length_app, length_map, length_seq; simpl; lia).
    rewrite <- Hlen' at 1. rewrite masked_sum_selects.
    rewrite app_nth1 by (rewrite length_map, length_seq; exact Hj).
    assert (Hx : map (fun i => F r0 i) (seq 0 s) !! j = Some (F r0 j))
      by (rewrite list_lookup_fmap, lookup_seq_lt by exact Hj; reflexivity).
    rewrite (nth_lookup_Some _ _ _ _ Hx). reflexivity.
Qed.

End HeadSelection.

(** X12. When [forward] returns on a network built with [num_actions = k]
    and the decision of a batch row selects a dimension [j] other than
    the last, the returned value of that row is the value drawn for
    dimension [j] scaled by [act_lim], and its log-probability is the
    log-probability of the decision plus the log-density of the drawn
    value under the Normal whose mean and log-std the two value layers
    give for dimension [j]. *)
Theorem forward_selects_drawn_value (texp : Q -> Q)
    (categorical_log_prob : list Q -> list Q -> Q)
    (normal_log_prob : Q -> Q -> Q -> Q)
    (ss k : nat) (al : Q) (bs hs nl : nat) (dr : Q) (w : init_weights)
    (h c : option (list (list (list Q))))
    (state : list (list Q)) (encoding : option (list (list Q))) (d : draws)
    (net' : PolicyNet) (decision : list (list Q)) (values log_prob : list Q) :
  forward texp categorical_log_prob normal_log_prob
    (set_state (PolicyNet_init ss k al bs hs nl dr w) h c) state encoding d
  = (net', Ok (decision, (values, log_prob))) ->
  exists h_1 decision_logit values_mean values_logstd,
    match h_list net' with Some l => last l | None => None end = Some h_1
    /\ Linear_forward (FC_decision net') h_1 = Ok decision_logit
    /\ Linear_forward (FC_values_mean net') h_1 = Ok values_mean
    /\ Linear_forward (FC_values_logstd net') h_1 = Ok values_logstd
    /\ forall r row j,
         decision !! r = Some row ->
         j < k - 1 ->
         row !! j = Some 1%Q ->
         exists v lp logits,
           values !! r = Some v
           /\ (v == value_draw d j r * al)%Q
           /\ decision_logit !! r = Some logits
           /\ log_prob !! r = Some lp
           /\ (lp == categorical_log_prob logits row
                     + normal_log_prob (entry values_mean r j)
                         (texp (entry values_logstd r j)) (value_draw d j r))%Q.
Proof.
  intros Hfwd.
  apply forward_Ok in Hfwd as (h_1 & hl & cl & Hrun & Hnet & Hhead).
  assert (Hk : 2 <= k).
  { apply policy_head_Ok_two_actions in Hhead. subst net'.
    destruct encoding; exact Hhead. }
  assert (HFd : FC_decision net'
                = Linear_init hs k (init_decision_W w) (init_decision_b w))
    by (subst net'; destruct encoding; reflexivity).
  assert (HFm : FC_values_mean net'
                = Linear_init hs k (init_mean_W w) (init_mean_b w))
    by (subst net'; destruct encoding; reflexivity).
  assert (HFs : FC_values_logstd net'
                = Linear_init hs k (init_logstd_W w) (init_logstd_b w))
    by (subst net'; destruct encoding; reflexivity).
  assert (Hna : num_actions net' = k) by (subst net'; destruct encoding; reflexivity).
  assert (Hbs : batch_size net' = bs) by (subst net'; destruct encoding; reflexivity).
  assert (Hal : act_lim net' = al) by (subst net'; destruct encoding; reflexivity).
  apply policy_head_inv in Hhead
    as (dl & vm & vl & acc & cols & sv & sl & Hdl & Hvm & Hvl & Hdec & Hloop
        & Happ & Hsv & Hsl & Hval & Hlp).
  assert (Hshape : forall W b m,
             Linear_forward (Linear_init hs k W b) h_1 = Ok m ->
             has_shape (length h_1) k m).
  { intros W b m Hm. apply Linear_init_forward_rows in Hm as [Hlen Hrows].
    split; [exact Hlen | apply Forall_lookup; exact Hrows]. }
  pose proof Hdl as Sdl. rewrite HFd in Sdl. apply Hshape in Sdl.
  pose proof Hvm as Svm. rewrite HFm in Svm. apply Hshape in Svm.
  pose proof Hvl as Svl. rewrite HFs in Svl. apply Hshape in Svl.
  set (rows := length h_1) in *.
  set (vs := map (map texp) vl) in *.
  assert (Svs : has_shape rows k vs) by (apply map_map_shape; exact Svl).
  pose proof (values_loop_accumulates normal_log_prob d vm vs rows k Svm Svs
                (k - 1) 0 ltac:(lia)) as Hacc.
  rewrite Hna in Hloop. cbn [accumulated Nat.add] in Hacc.
  rewrite Hloop in Hacc. injection Hacc as ->.
  destruct (k - 1) as [|s] eqn:Hs; [lia|]. cbn [accumulated] in Happ.
  apply append_noop_Ok in Happ as (av & alp & [= <- <-] & Hav & Halp).
  rewrite Hbs in Hav, Halp.
  exists h_1, dl, vm, vl. split.
  { subst net'. cbn [set_state h_list]. eapply recurrent_last. exact Hrun. }
  split; [exact Hdl|]. split; [exact Hvm|]. split; [exact Hvl|].
  intros r row j Hr Hj Hsel.
  assert (Hr' := Hr). rewrite Hdec in Hr'.
  apply sample_decision_lookup in Hr' as (logits & Hlogits & Erow).
  rewrite (has_shape_lookup _ _ _ _ _ Sdl Hlogits) in Erow.
  assert (Ej : row = one_hot (S (S s)) j).
  { replace k with (S (S s)) in Erow by lia.
    rewrite Erow in Hsel |- *. rewrite one_hot_lookup in Hsel by lia.
    destruct (Nat.eqb_spec j (decision_draw d r mod S (S s))) as [<-|];
      [reflexivity | discriminate]. }
  rewrite Ej in Hr.
  assert (Hrrows : (r < rows)%nat).
  { apply lookup_lt_Some in Hlogits. destruct Sdl as [<- _]. exact Hlogits. }
  unfold drawn_values in Hav. unfold drawn_log_prob in Halp.
  destruct (selected_entry (fun r0 i => value_draw d i r0) rows (S s) bs
              _ _ _ r j Hav Hsv Hr Hj) as (v1 & Hv1 & Ev1).
  destruct (selected_entry
              (fun r0 i => normal_log_prob (entry vm r0 i) (entry vs r0 i)
                             (value_draw d i r0)) rows (S s) bs
              _ _ _ r j Halp Hsl Hr Hj) as (v2 & Hv2 & Ev2).
  exists (v1 * act_lim net')%Q, (categorical_log_prob logits row + v2)%Q, logits.
  split.
  { rewrite Hval, list_lookup_fmap, Hv1. reflexivity. }
  split; [rewrite Ev1, Hal; reflexivity|].
  split; [exact Hlogits|].
  split.
  { rewrite Hlp, lookup_zip_with, lookup_zip_with, Hlogits. cbn.
    rewrite Hdec in Hr |- *. rewrite Hr. cbn. rewrite Hv2. cbn.
    rewrite Ej. reflexivity. }
  rewrite Ev2. unfold vs.
  rewrite (entry_map_map texp vl rows k r j Svl Hrrows ltac:(lia)). reflexivity.
Qed.

Lemma forward_selects_drawn_value_witness :
  exists h_1 decision_logit values_mean values_logstd,
    match h_list (fst (demo_forward (demo_net 3 2) [[1%Q]] (Some [[5%Q; 7%Q]])
                         (demo_draws 0)))
    with Some l => last l | None => None end = Some h_1
    /\ Linear_forward
         (FC_decision (fst (demo_forward (demo_net 3 2) [[1%Q]] (Some [[5%Q; 7%Q]])
                              (demo_draws 0)))) h_1 = Ok decision_logit
    /\ Linear_forward
         (FC_values_mean (fst (demo_forward (demo_net 3 2) [[1%Q]] (Some [[5%Q; 7%Q]])
                                 (demo_draws 0)))) h_1 = Ok values_mean
    /\ Linear_forward
         (FC_values_logstd (fst (demo_forward (demo_net 3 2) [[1%Q]] (Some [[5%Q; 7%Q]])
                                   (demo_draws 0)))) h_1 = Ok values_logstd
    /\ forall r row j,
         [[1%Q; 0%Q; 0%Q]] !! r = Some row ->
         j < 3 - 1 ->
         row !! j = Some 1%Q ->
         exists v lp logits,
           [2%Q] !! r = Some v
           /\ (v == value_draw (demo_draws 0) j r * 2)%Q
           /\ decision_logit !! r = Some logits
           /\ [-8855040 # 25600] !! r = Some lp
           /\ (lp == demo_categorical logits row
                     + demo_normal (entry values_mean r j)
                         (demo_exp (entry values_logstd r j))
                         (value_draw (demo_draws 0) j r))%Q.
Proof.
  apply (forward_selects_drawn_value demo_exp demo_categorical demo_normal
           1 3 2 1 2 2 (85 # 100) demo_weights None None
           [[1%Q]] (Some [[5%Q; 7%Q]]) (demo_draws 0)).
  vm_compute. reflexivity.
Defined.


(** ** Encoder: when it returns *)

Lemma shape_eqb_eq (a b : list nat) : shape_eqb a b = true <-> a = b.
Proof.
  split; [|intros ->; apply shape_eqb_refl].
  unfold shape_eqb. intros H. apply andb_prop in H as [Hlen Hall].
  apply Nat.eqb_eq in Hlen.
  revert b Hlen Hall. induction a as [|x a IH]; intros [|y b] Hlen Hall;
    try discriminate; [reflexivity|].
  cbn in Hall. apply andb_prop in Hall as [Hxy Hall].
  apply Nat.eqb_eq in Hxy. subst y. f_equal.
  apply IH; [simpl in Hlen; lia | exact Hall].
Qed.

(** X14. On an input tensor without an empty dimension, [Encoder.forward]
    returns exactly when the input has shape (batch, seq_len, input_size)
    and the encoder has at least one layer, where an initial state counts
    only if [h_0] and [c_0] are both given and must then have shape
    (num_layers, batch, hidden_size); a state given in part is ignored,
    and an unbatched input always raises.  The result has shape
    (batch, hidden_size), or (batch) when [hidden_size] is 1. *)
Theorem Encoder_forward_returns_iff (enc : Encoder) (input : list nat)
    (h_0 c_0 : option (list nat)) (s : list nat) :
  Forall (fun n => 0 < n) input ->
  Encoder_forward enc input h_0 c_0 = Ok s
  <-> exists batch seq_len,
        input = [batch; seq_len; input_size enc]
        /\ 1 <= enc_num_layers enc
        /\ match h_0, c_0 with
           | Some h, Some c =>
               h = [enc_num_layers enc; batch; enc_hidden_size enc]
               /\ c = [enc_num_layers enc; batch; enc_hidden_size enc]
           | _, _ => True
           end
        /\ s = if enc_hidden_size enc =? 1 then [batch]
               else [batch; enc_hidden_size enc].
Proof.
  assert (Htail : forall batch,
             1 <= enc_num_layers enc ->
             (do encoding <- select_last_layer
                               [enc_num_layers enc; batch; enc_hidden_size enc];
              squeeze 1 encoding)
             = Ok (if enc_hidden_size enc =? 1 then [batch]
                   else [batch; enc_hidden_size enc])).
  { intros batch Hl. cbn [select_last_layer].
    destruct (Nat.eqb_spec (enc_num_layers enc) 0); [lia|].
    cbn [rbind]. unfold squeeze. cbn [lookup list_lookup].
    destruct (enc_hidden_size enc =? 1); reflexivity. }
  assert (Hzero : forall batch,
             enc_num_layers enc = 0 ->
             (do encoding <- select_last_layer
                               [enc_num_layers enc; batch; enc_hidden_size enc];
              squeeze 1 encoding) = Raise IndexError).
  { intros batch Hl. cbn [select_last_layer]. rewrite Hl. reflexivity. }
  intros _. unfold Encoder_forward. split.
  - intros H.
    destruct input as [|a [|b [|f [|x rest]]]];
      try (destruct h_0, c_0; discriminate).
    + (* unbatched *)
      exfalso. cbn [LSTM_h_n] in H.
      destruct (b =? input_size enc); [|destruct h_0, c_0; discriminate].
      destruct h_0 as [h|], c_0 as [c|]; try discriminate.
      destruct (shape_eqb h _ && shape_eqb c _); discriminate.
    + cbn [LSTM_h_n] in H.
      destruct (Nat.eqb_spec f (input_size enc)) as [->|];
        [|destruct h_0, c_0; discriminate].
      exists a, b. split; [reflexivity|].
      destruct (Nat.eq_dec (enc_num_layers enc) 0) as [Hl|Hl].
      * exfalso. destruct h_0 as [h|], c_0 as [c|];
          try (cbn [rbind] in H; rewrite (Hzero a Hl) in H; discriminate).
        destruct (shape_eqb h _ && shape_eqb c _); [|discriminate].
        cbn [rbind] in H. rewrite (Hzero a Hl) in H. discriminate.
      * split; [lia|].
        destruct h_0 as [h|], c_0 as [c|];
          try (cbn [rbind] in H; rewrite (Htail a ltac:(lia)) in H;
               injection H as <-; split; [exact I | reflexivity]).
        destruct (shape_eqb h _) eqn:Eh; [|discriminate].
        destruct (shape_eqb c _) eqn:Ec; [|discriminate].
        cbn [andb rbind] in H. rewrite (Htail a ltac:(lia)) in H.
        injection H as <-.
        apply shape_eqb_eq in Eh, Ec. auto.
  - intros (batch & seq_len & -> & Hl & Hstate & ->).
    cbn [LSTM_h_n]. rewrite Nat.eqb_refl.
    destruct h_0 as [h|], c_0 as [c|];
      try (cbn [rbind]; apply Htail; exact Hl).
    destruct Hstate as [-> ->]. rewrite shape_eqb_refl. cbn [andb rbind].
    apply Htail. exact Hl.
Qed.

Lemma Encoder_forward_returns_iff_witness :
  Encoder_forward (mkEncoder 4 1 128 2 (85 # 100)) [8; 30; 4] (Some [7]) None
  = Ok [8; 128].
Proof.
  apply (Encoder_forward_returns_iff (mkEncoder 4 1 128 2 (85 # 100)) [8; 30; 4]
           (Some [7]) None [8; 128]).
  - repeat constructor.
  - exists 8, 30. repeat split. simpl. lia.
Defined.

(** ** The loss: a log-probability tensor of length 1 *)

(** X15. A log-probability tensor with a single entry is accepted next to
    a reward sequence of any length and stretched over it: for a batch of
    one such episode the loss is minus that entry times the sum of all
    reward-to-go weights. *)
Theorem optimize_model_loss_stretches_single_log_prob (GAMMA x : Q)
    (rewards : list Q) :
  exists loss,
    optimize_model_loss GAMMA [[x]] [rewards] = Ok loss
    /\ (loss == - (x * fold_right Qplus 0 (reward_to_go GAMMA rewards)))%Q.
Proof.
  unfold optimize_model_loss. cbn [length seq map loss_loop].
  unfold episode_term. cbn [subscript lookup list_lookup rbind].
  set (w := reward_to_go GAMMA rewards).
  assert (Hsum : forall l : list Q,
             (fold_right Qplus 0 (map (fun y => x * y) l)
              == x * fold_right Qplus 0 l)%Q).
  { induction l as [|y l IH]; cbn [map fold_right]; [ring|]. rewrite IH. ring. }
  unfold tmul. cbn [length hd].
  destruct (Nat.eqb_spec 1 (length w)) as [Hone|Hne].
  - cbn [rbind]. eexists. split; [reflexivity|].
    destruct w as [|y [|z w']]; try discriminate.
    cbn. unfold tsum. cbn. field.
  - cbn [Nat.eqb rbind]. eexists. split; [reflexivity|].
    rewrite tsum_fold_right, Hsum. cbn. field.
Qed.
